(** * Shallow embedding of the pick/score/leaderboard core of [src/main.py]

    The SQLite tables [games] and [picks] are modelled as lists of
    records, in row-insertion order.  A column that may hold NULL is an
    [option].  Timestamps ([start_utc], [made_at]) are ISO-8601 strings in
    the source; they are modelled by the instants they denote ([nat]),
    since the source only compares them.  The [over_under] column is a
    REAL; it is modelled as a rational ([Q]).  The [users],
    [achievements], [groups] and [group_members] tables and the feed
    filter of [fetch_ap_top25_games_for_week] follow further below.  HTTP
    wiring and templates are not modelled. *)

From Stdlib Require Import String List ZArith QArith Bool Arith Lia.
From Stdlib Require Import Sorting.Permutation Sorting.Sorted.
Import ListNotations.

Open Scope nat_scope.
Open Scope string_scope.

(** ** Tables *)

(** A row of the [games] table (see [init_db]).  [game_id] is a [TEXT
    PRIMARY KEY], which SQLite lets hold NULL; the names come from the feed
    and may be NULL as well. *)
Record game := mkGame {
  game_id : option string;
  short_name : option string;
  home_id : option string;
  home_name : option string;
  away_id : option string;
  away_name : option string;
  start_utc : option nat;
  over_under : option Q;
  final_home_score : option Z;
  final_away_score : option Z;
  is_final : bool
}.

(** A row of the [picks] table; [pick_id] (AUTOINCREMENT) is not used by
    any query of the core and is left out.  There is no line column. *)
Record pick := mkPick {
  user : string;
  pick_game_id : string;
  pick_winner : string;
  pick_total : string;
  made_at : nat
}.

Record db := mkDb {
  games : list game;
  picks : list pick
}.

(** A record produced by [fetch_ap_top25_games_for_week] and consumed by
    [upsert_games]: [ev.get("id")], [ev.get("shortName")] and the team
    names may all be [None]. *)
Record game_rec := mkGameRec {
  g_game_id : option string;
  g_short_name : option string;
  g_home_id : option string;
  g_home_name : option string;
  g_away_id : option string;
  g_away_name : option string;
  g_start_utc : option nat;
  g_over_under : option Q
}.

(** One event of the scoreboard feed, as read by [update_scores_with_finals]:
    [gid], [home_score], [away_score] and [completed]. *)
Record final_event := mkEvent {
  ev_gid : option string;
  ev_home_score : option Z;
  ev_away_score : option Z;
  ev_completed : bool
}.

(** [g.game_id = ?] for a text [?]: a NULL [game_id] equals nothing. *)
Definition key_is (k : option string) (x : string) : bool :=
  match k with Some y => String.eqb y x | None => false end.

(** ** [make_prediction] *)

Definition pick_key_is (u gid : string) (p : pick) : bool :=
  String.eqb (user p) u && String.eqb (pick_game_id p) gid.

(** [INSERT INTO picks ...]; the [UNIQUE(user, game_id)] constraint raises
    [IntegrityError] when the pair is present, which the handler swallows
    ([except sqlite3.IntegrityError: pass]).  The handler always answers
    with a redirect to [/games?user=<user>].  [now] is [datetime.utcnow()]. *)
Definition make_prediction (s : db) (now : nat) (u gid winner total : string)
  : db * string :=
  let s' :=
    if existsb (pick_key_is u gid) (picks s) then s
    else mkDb (games s) (picks s ++ [mkPick u gid winner total now]) in
  (s', "/games?user=" ++ u).

(** ** [upsert_games] *)

Definition new_game (r : game_rec) : game :=
  mkGame (g_game_id r) (g_short_name r) (g_home_id r) (g_home_name r)
         (g_away_id r) (g_away_name r) (g_start_utc r) (g_over_under r)
         None None false.

(** [ON CONFLICT(game_id) DO UPDATE SET short_name=..., ..., over_under=...]:
    only the descriptive columns are overwritten.  A NULL [game_id] never
    conflicts (NULLs are distinct in a UNIQUE index), so a record without
    an id is inserted as a new row every time. *)
Definition update_descr (r : game_rec) (g : game) : game :=
  mkGame (game_id g) (g_short_name r) (g_home_id r) (g_home_name r)
         (g_away_id r) (g_away_name r) (g_start_utc r) (g_over_under r)
         (final_home_score g) (final_away_score g) (is_final g).

Definition upsert_one (gs : list game) (r : game_rec) : list game :=
  match g_game_id r with
  | None => gs ++ [new_game r]
  | Some id =>
      if existsb (fun g => key_is (game_id g) id) gs
      then map (fun g => if key_is (game_id g) id then update_descr r g else g) gs
      else gs ++ [new_game r]
  end.

Definition upsert_games (s : db) (rs : list game_rec) : db :=
  mkDb (fold_left upsert_one rs (games s)) (picks s).

(** ** [update_scores_with_finals] *)

(** [UPDATE games SET final_home_score=?, final_away_score=?, is_final=?
    WHERE game_id=?]; a NULL [gid] matches no row. *)
Definition apply_final (gs : list game) (e : final_event) : list game :=
  match ev_gid e with
  | None => gs
  | Some gid =>
      map (fun g =>
             if key_is (game_id g) gid
             then mkGame (game_id g) (short_name g) (home_id g) (home_name g)
                         (away_id g) (away_name g) (start_utc g) (over_under g)
                         (ev_home_score e) (ev_away_score e) (ev_completed e)
             else g) gs
  end.

Definition update_scores_with_finals (s : db) (evs : list final_event) : db :=
  mkDb (fold_left apply_final evs (games s)) (picks s).

(** ** What the ingestion and result writers leave behind *)

(** The last record of a batch that names game [x]. *)
Definition last_rec_for (rs : list game_rec) (x : string) : option game_rec :=
  find (fun r => key_is (g_game_id r) x) (rev rs).

(** The score columns and [is_final] of a row. *)
Definition finals (g : game) : option Z * option Z * bool :=
  (final_home_score g, final_away_score g, is_final g).

(** The id and the score columns and [is_final] of a row. *)
Definition id_finals (g : game) : option string * (option Z * option Z * bool) :=
  (game_id g, finals g).

(** Event [e] names a row with key [k] ([WHERE game_id=?]). *)
Definition ev_names (e : final_event) (k : option string) : bool :=
  match ev_gid e with Some gid => key_is k gid | None => false end.

(** The last event of a batch that names a row with key [k]. *)
Definition last_event_for (evs : list final_event) (k : option string) : option final_event :=
  find (fun e => ev_names e k) (rev evs).

(** ** Sorting ([ORDER BY]) *)

Fixpoint insert_by {A} (le : A -> A -> bool) (x : A) (l : list A) : list A :=
  match l with
  | [] => [x]
  | y :: t => if le x y then x :: y :: t else y :: insert_by le x t
  end.

Fixpoint sort_by {A} (le : A -> A -> bool) (l : list A) : list A :=
  match l with
  | [] => []
  | x :: t => insert_by le x (sort_by le t)
  end.

(** SQLite sorts NULL first in an ascending order. *)
Definition start_le (a b : game) : bool :=
  match start_utc a, start_utc b with
  | None, _ => true
  | Some _, None => false
  | Some x, Some y => Nat.leb x y
  end.

Definition find_game (gs : list game) (gid : string) : option game :=
  find (fun g => key_is (game_id g) gid) gs.

(** ** [profile] *)

(** [SELECT game_id FROM games ORDER BY start_utc ASC LIMIT 15]; a NULL
    [game_id] is kept in the list (as [None]). *)
Definition top_game_ids (gs : list game) : list (option string) :=
  firstn 15 (map game_id (sort_by start_le gs)).

(** [p.game_id IN (?, ..., ?)]: a NULL in the list matches nothing. *)
Definition in_top (gs : list game) (p : pick) : bool :=
  existsb (fun k => key_is k (pick_game_id p)) (top_game_ids gs).

(** A row of the profile query: the pick with its [LEFT JOIN]ed game. *)
Definition prow : Type := (pick * option game)%type.

Definition made_le (a b : prow) : bool := Nat.leb (made_at (fst a)) (made_at (fst b)).

(** [WHERE p.user=? AND p.game_id IN (top_game_ids) ORDER BY p.made_at ASC];
    with no top game the source skips the query ([picks = []]). *)
Definition profile_rows (gs : list game) (ps : list pick) (u : string) : list prow :=
  match top_game_ids gs with
  | [] => []
  | _ =>
      sort_by made_le
        (map (fun p => (p, find_game gs (pick_game_id p)))
             (filter (fun p => String.eqb (user p) u && in_top gs p) ps))
  end.

(** [actual_winner = "home" if home > away else "away"] *)
Definition profile_actual_winner (home away : Z) : string :=
  if (away <? home)%Z then "home" else "away".

(** [ou_result = "over" if total_points > (pick["over_under"] or 0) else "under"] *)
Definition or_zero (ou : option Q) : Q :=
  match ou with Some q => q | None => 0%Q end.

Definition profile_ou_result (total_points : Z) (ou : option Q) : string :=
  if negb (Qle_bool (inject_Z total_points) (or_zero ou)) then "over" else "under".

Record pstate := mkPState {
  total_picks : nat;
  wins : nat;
  current_streak : nat;
  last_was_win : option bool
}.

Definition pstate0 : pstate := mkPState 0 0 0 None.

(** The body of [for pick in picks: ...]. *)
Definition profile_step (st : pstate) (r : prow) : pstate :=
  let (p, og) := r in
  match og with
  | None => st   (* [pick["is_final"]] is NULL *)
  | Some g =>
    if negb (is_final g) then st else
    let tp := S (total_picks st) in
    match final_home_score g, final_away_score g with
    | Some home, Some away =>
        let actual_winner := profile_actual_winner home away in
        let ou_result := profile_ou_result (home + away)%Z (over_under g) in
        let correct := String.eqb (pick_winner p) actual_winner
                       && String.eqb (pick_total p) ou_result in
        if correct then
          mkPState tp (S (wins st))
            (match last_was_win st with
             | Some true | None => S (current_streak st)
             | Some false => 1
             end)
            (Some true)
        else mkPState tp (wins st) 0 (Some false)
    | _, _ => mkPState tp (wins st) (current_streak st) (last_was_win st)
    end
  end.

Definition profile_loop (rows : list prow) : pstate :=
  fold_left profile_step rows pstate0.

Record profile_out := mkProfileOut {
  po_total_picks : nat;
  po_wins : nat;
  po_win_rate : nat;
  po_current_streak : nat;
  po_streak5 : bool;
  po_win80 : bool
}.

Section Profile.
(** [int((wins / total_picks) * 100)] is computed in floating point by
    the source; it is kept abstract here. *)
Variable win_rate_of : nat -> nat -> nat.

(** The statistics and badge decisions of [profile] for user [u]. *)
Definition profile_stats (gs : list game) (ps : list pick) (u : string) : profile_out :=
  let st := profile_loop (profile_rows gs ps u) in
  let win_rate := if Nat.ltb 0 (total_picks st)
                  then win_rate_of (wins st) (total_picks st) else 0 in
  mkProfileOut (total_picks st) (wins st) win_rate (current_streak st)
    (Nat.leb 5 (current_streak st))
    (Nat.leb 80 win_rate && Nat.leb 10 (total_picks st)).
End Profile.

(** ** [leaderboard] *)

(** SQL comparisons yield NULL ([None]) when an operand is NULL. *)
Definition sql_gt_z (a b : option Z) : option bool :=
  match a, b with Some x, Some y => Some (y <? x)%Z | _, _ => None end.

Definition sql_add (a b : option Z) : option Z :=
  match a, b with Some x, Some y => Some (x + y)%Z | _, _ => None end.

Definition sql_gt_q (a : option Z) (b : option Q) : option bool :=
  match a, b with
  | Some x, Some y => Some (negb (Qle_bool (inject_Z x) y))
  | _, _ => None
  end.

(** [CASE WHEN g.final_home_score > g.final_away_score THEN 'home' ELSE 'away' END] *)
Definition lb_winner (g : game) : string :=
  match sql_gt_z (final_home_score g) (final_away_score g) with
  | Some true => "home"
  | _ => "away"
  end.

(** [CASE WHEN g.final_home_score + g.final_away_score > g.over_under THEN 'over' ELSE 'under' END] *)
Definition lb_total (g : game) : string :=
  match sql_gt_q (sql_add (final_home_score g) (final_away_score g)) (over_under g) with
  | Some true => "over"
  | _ => "under"
  end.

(** The [WHERE] clause of the leaderboard query. *)
Definition lb_qualifies (p : pick) (g : game) : bool :=
  is_final g && String.eqb (pick_winner p) (lb_winner g)
             && String.eqb (pick_total p) (lb_total g).

(** [FROM picks p JOIN games g ON g.game_id = p.game_id] *)
Definition lb_join (s : db) : list (pick * game) :=
  flat_map (fun p => map (fun g => (p, g))
                         (filter (fun g => key_is (game_id g) (pick_game_id p)) (games s)))
           (picks s).

Definition lb_rows (s : db) : list (pick * game) :=
  filter (fun pg => lb_qualifies (fst pg) (snd pg)) (lb_join s).

Definition lb_count (s : db) (u : string) : nat :=
  length (filter (fun pg => String.eqb (user (fst pg)) u) (lb_rows s)).

(** [GROUP BY p.user] with [COUNT( * ) as correct], before the [ORDER BY]. *)
Definition leaderboard_groups (s : db) : list (string * nat) :=
  map (fun u => (u, lb_count s u))
      (nodup string_dec (map (fun pg => user (fst pg)) (lb_rows s))).

(** [ORDER BY correct DESC]: SQL fixes the order of the groups by count
    only; any arrangement of the groups sorted that way is a result the
    query may return. *)
Definition count_ge (a b : string * nat) : Prop := snd b <= snd a.

Definition leaderboard_result (s : db) (board : list (string * nat)) : Prop :=
  Permutation (leaderboard_groups s) board /\ Sorted count_ge board.

(** ** Streak walk as the spec describes it *)

(** Increment on a fully-correct result, reset to zero on anything else. *)
Definition streak_step (c : nat) (b : bool) : nat := if b then S c else 0.

Definition streak_walk (results : list bool) : nat :=
  fold_left streak_step results 0.

(** Fully-correct flags of the rows the profile loop scores (finalized game
    with both scores present), in row order. *)
Definition row_flag (r : prow) : list bool :=
  let (p, og) := r in
  match og with
  | Some g =>
      if is_final g then
        match final_home_score g, final_away_score g with
        | Some home, Some away =>
            [String.eqb (pick_winner p) (profile_actual_winner home away)
             && String.eqb (pick_total p) (profile_ou_result (home + away)%Z (over_under g))]
        | _, _ => []
        end
      else []
  | None => []
  end.

Definition scored_flags (rows : list prow) : list bool := flat_map row_flag rows.

(** ** Handlers that compose the operations above *)

(** The core operations a request can trigger, in the order requests
    arrive: [/predict], the [upsert_games] of [/games] and
    [/admin/update_scores]. *)
Inductive op :=
  | OpPredict (now : nat) (u gid winner total : string)
  | OpUpsert (rs : list game_rec)
  | OpFinals (evs : list final_event).

Definition run_op (s : db) (o : op) : db :=
  match o with
  | OpPredict now u gid w t => fst (make_prediction s now u gid w t)
  | OpUpsert rs => upsert_games s rs
  | OpFinals evs => update_scores_with_finals s evs
  end.

Definition run_ops (s : db) (os : list op) : db := fold_left run_op os s.

(** [/games]: [upsert_games(games)], then the picked ids of [user] are read
    and [games = [g for g in games if g["game_id"] not in picked_game_ids]]. *)
Definition picked_game_ids (ps : list pick) (u : string) : list string :=
  map pick_game_id (filter (fun p => String.eqb (user p) u) ps).

(** [g["game_id"] not in picked_game_ids]: the set holds strings only, so
    [None] is never in it. *)
Definition not_picked (picked : list string) (r : game_rec) : bool :=
  match g_game_id r with
  | Some id => negb (existsb (String.eqb id) picked)
  | None => true
  end.

Definition games_handler (s : db) (fetched : list game_rec) (u : string)
  : db * list game_rec :=
  let s' := upsert_games s fetched in
  let picked := picked_game_ids (picks s') u in
  (s', filter (not_picked picked) fetched).

(** ** The [users] table, [/predict]'s user insert and [/register] *)

(** A row of [users]; [user_id] (AUTOINCREMENT) is left out.  A user
    created by [/predict] has a NULL password. *)
Record user_row := mkUser {
  username : string;
  password : option string;
  join_date : nat
}.

Definition user_exists (us : list user_row) (u : string) : bool :=
  existsb (fun r => String.eqb (username r) u) us.

(** [INSERT OR IGNORE INTO users (username, join_date) VALUES (?, ?)] *)
Definition insert_or_ignore_user (us : list user_row) (u : string) (now : nat) : list user_row :=
  if user_exists us u then us else (us ++ [mkUser u None now])%list.

(** [make_prediction] with its [users] insert. *)
Definition make_prediction_app (s : db) (us : list user_row) (now : nat)
  (u gid winner total : string) : db * list user_row * string :=
  let us' := insert_or_ignore_user us u now in
  let (s', resp) := make_prediction s now u gid winner total in
  (s', us', resp).

(** Requests that write the [games], [picks] or [users] tables, in the
    order they arrive ([/predict] with its user insert, the ingestion of
    [/games], [/admin/update_scores], [/register]); no handler deletes
    from [users]. *)
Inductive app_op :=
  | AppPredict (now : nat) (u gid winner total : string)
  | AppUpsert (rs : list game_rec)
  | AppFinals (evs : list final_event)
  | AppRegister (u pw : string) (now : nat).

(** Characters are code points 0..255.  [str.isspace] holds for 9..13,
    28..32, 133 and 160 in that range. *)
Definition is_py_space (c : Ascii.ascii) : bool :=
  let n := Ascii.nat_of_ascii c in
  (Nat.leb 9 n && Nat.leb n 13) || (Nat.leb 28 n && Nat.leb n 32) || Nat.eqb n 133 || Nat.eqb n 160.

Fixpoint drop_spaces (l : list Ascii.ascii) : list Ascii.ascii :=
  match l with
  | [] => []
  | c :: t => if is_py_space c then drop_spaces t else l
  end.

(** [password.strip()] *)
Definition py_strip (s : string) : string :=
  string_of_list_ascii (rev (drop_spaces (rev (drop_spaces (list_ascii_of_string s))))).

(** [len(password.encode('utf-8'))]: code points below 128 take one byte,
    128..255 take two. *)
Definition utf8_len (s : string) : nat :=
  fold_right (fun c n => (if Nat.ltb (Ascii.nat_of_ascii c) 128 then 1 else 2) + n) 0
             (list_ascii_of_string s).

Inductive register_response :=
  | RegEncodingError
  | RegPasswordLength
  | RegHashError
  | RegUsernameTaken
  | RegRedirect (token_user : string).

Section Register.
(** [pwd_context.hash]; [None] is the [ValueError] it may raise. *)
Variable hash : string -> option string.

(** [register_post] (the encode of a string of code points 0..255 cannot
    fail, so [RegEncodingError] is never produced). *)
Definition register_post (us : list user_row) (u pw : string) (now : nat)
  : list user_row * register_response :=
  let pw' := py_strip pw in
  let n := utf8_len pw' in
  if negb (Nat.leb 8 n && Nat.leb n 72) then (us, RegPasswordLength) else
  match hash (substring 0 72 pw') with
  | None => (us, RegHashError)
  | Some hashed =>
      if user_exists us u then (us, RegUsernameTaken)
      else ((us ++ [mkUser u (Some hashed) now])%list, RegRedirect u)
  end.

Definition app_step (st : db * list user_row) (o : app_op) : db * list user_row :=
  match o with
  | AppPredict now u gid w t =>
      let '(s', us', _) := make_prediction_app (fst st) (snd st) now u gid w t in (s', us')
  | AppUpsert rs => (upsert_games (fst st) rs, snd st)
  | AppFinals evs => (update_scores_with_finals (fst st) evs, snd st)
  | AppRegister u pw now => (fst st, fst (register_post (snd st) u pw now))
  end.

Definition run_app (st : db * list user_row) (os : list app_op) : db * list user_row :=
  fold_left app_step os st.
End Register.

(** ** The [achievements] table and the badges of [profile] *)

Record achievement := mkAch {
  a_username : string;
  badge : string;
  awarded_at : nat
}.

(** [INSERT OR IGNORE INTO achievements ...] under [UNIQUE(username, badge)]. *)
Definition award (ach : list achievement) (u b : string) (now : nat) : list achievement :=
  if existsb (fun a => String.eqb (a_username a) u && String.eqb (badge a) b) ach
  then ach else (ach ++ [mkAch u b now])%list.

(** The badge part of [profile]: award [Streak5] and [Win80] when earned,
    then append the user's stored badges not already listed.
    [select_badges ach u] is what [SELECT badge FROM achievements WHERE
    username=?] returns on table [ach]: the query has no [ORDER BY], so the
    order of the rows is left to SQLite, as a function of the table. *)
Definition profile_badges (select_badges : list achievement -> string -> list string)
  (ach : list achievement) (u : string) (po : profile_out) (now : nat)
  : list achievement * list string :=
  let '(ach1, b1) := if po_streak5 po then (award ach u "Streak5" now, ["Streak5"])
                     else (ach, []) in
  let '(ach2, b2) := if po_win80 po then (award ach1 u "Win80" now, (b1 ++ ["Win80"])%list)
                     else (ach1, b1) in
  let stored := select_badges ach2 u in
  (ach2, (b2 ++ filter (fun b => negb (existsb (String.eqb b) b2)) stored)%list).

(** ** [groups] and [create_group] *)






(** ** [get_current_cf_week] *)

(** [max(1, ((today - season_start).days // 7) + 1)]; [days] is
    [(today - season_start).days], which is negative before the start. *)
Definition get_current_cf_week (days : Z) : Z :=
  Z.max 1 (days / 7 + 1).

(** ** [is_top25_team] *)

(** [str.lower] on code points 0..255: A..Z and the Latin-1 capitals
    192..222 except 215 move up by 32. *)
Definition py_lower_char (c : Ascii.ascii) : Ascii.ascii :=
  let n := Ascii.nat_of_ascii c in
  if (Nat.leb 65 n && Nat.leb n 90)
     || (Nat.leb 192 n && Nat.leb n 222 && negb (Nat.eqb n 215))
  then Ascii.ascii_of_nat (n + 32) else c.

Definition py_lower (s : string) : list Ascii.ascii :=
  map py_lower_char (list_ascii_of_string s).

Fixpoint is_prefix (p s : list Ascii.ascii) : bool :=
  match p, s with
  | [], _ => true
  | _ :: _, [] => false
  | a :: p', b :: s' => Ascii.eqb a b && is_prefix p' s'
  end.

(** Python's [p in s] on strings. *)
Fixpoint py_contains (p s : list Ascii.ascii) : bool :=
  is_prefix p s || match s with [] => false | _ :: s' => py_contains p s' end.

Definition is_top25_team (name : string) (top25_names : list string) : bool :=
  let name_lc := py_lower name in
  existsb (fun ap_team => py_contains (py_lower ap_team) name_lc
                          || py_contains name_lc (py_lower ap_team)) top25_names.

(** ** The filter of [fetch_ap_top25_games_for_week] *)

(** A JSON member as [dict.get] sees it: absent, present with [null], or
    present with a value. *)
Inductive jfield (A : Type) : Type :=
  | JAbsent
  | JNull
  | JVal (a : A).
Arguments JAbsent {A}.
Arguments JNull {A}.
Arguments JVal {A} a.

(** The [team] object of a competitor: [displayName] and [id] ([.get("id")]
    gives [None] both when it is absent and when it is [null]). *)
Record team_obj := mkTeam {
  display_name : jfield string;
  team_id : option string
}.

(** A competitor of an event: [homeAway] and [team]. *)
Record competitor := mkComp {
  homeAway : option string;
  team : jfield team_obj
}.

(** An event of the scoreboard: [id], [shortName], the competitors, the
    [date] and the odds: [None] when there are no odds or no [overUnder],
    [Some None] when [float(...)] fails, [Some (Some q)] otherwise. *)
Record sb_event := mkSbEvent {
  sb_id : option string;
  sb_short_name : option string;
  sb_competitors : list competitor;
  sb_date : option nat;
  sb_over_under : option (option Q)
}.

(** The dict appended to [games]. *)
Record fetched_game := mkFetched {
  f_game_id : option string;
  f_short_name : option string;
  f_home_id : option string;
  f_home_name : option string;
  f_away_id : option string;
  f_away_name : option string;
  f_start_utc : option nat;
  f_over_under : option Q
}.

(** [next((c for c in comps if c.get("homeAway") == side), {})] *)
Definition side_of (side : string) (comps : list competitor) : option competitor :=
  find (fun c => match homeAway c with Some h => String.eqb h side | None => false end) comps.

(** [c.get("team", {}).get("displayName", "")] for the competitor found
    ([None] stands for the default [{}]).  The outer [None] is the
    [AttributeError] of [None.get] when [team] is [null]; the inner [None]
    is a [null] [displayName]. *)
Definition name_of (c : option competitor) : option (option string) :=
  match c with
  | None => Some (Some "")
  | Some c =>
      match team c with
      | JAbsent => Some (Some "")
      | JNull => None
      | JVal t =>
          match display_name t with
          | JAbsent => Some (Some "")
          | JNull => Some None
          | JVal n => Some (Some n)
          end
      end
  end.

(** [c.get("team", {}).get("id")]; it is only reached when [name_of] did
    not raise, so a [null] [team] does not occur here. *)
Definition id_of (c : option competitor) : option string :=
  match c with
  | Some c => match team c with JVal t => team_id t | _ => None end
  | None => None
  end.

(** [is_top25_team(name, top25_names)] on a name that may be [None]:
    [None.lower()] raises ([None] here). *)
Definition py_is_top25 (name : option string) (top25 : list string) : option bool :=
  match name with
  | Some n => Some (is_top25_team n top25)
  | None => None
  end.

(** The body of [for ev in events]; [None] is a [continue], also the one
    of [except Exception].  [not A and not B] evaluates [B] only when [A]
    is false. *)
Definition fetch_one (top25 : list string) (ev : sb_event) : option fetched_game :=
  let comps := sb_competitors ev in
  if negb (Nat.eqb (length comps) 2) then None else
  let home := side_of "home" comps in
  let away := side_of "away" comps in
  match name_of home, name_of away with
  | Some home_name, Some away_name =>
      let keep :=
        match py_is_top25 home_name top25 with
        | Some true => true
        | Some false =>
            match py_is_top25 away_name top25 with Some true => true | _ => false end
        | None => false
        end in
      if keep then
        let over_under := match sb_over_under ev with Some (Some q) => Some q | _ => None end in
        Some (mkFetched (sb_id ev) (sb_short_name ev) (id_of home) home_name
                        (id_of away) away_name (sb_date ev) over_under)
      else None
  | _, _ => None
  end.

Definition fetch_games (top25 : list string) (evs : list sb_event) : list fetched_game :=
  flat_map (fun ev => match fetch_one top25 ev with Some g => [g] | None => [] end) evs.

(** ** Concrete databases used below *)

Definition tgame (id : string) (start : nat) (line : option Q)
           (h a : option Z) (fin : bool) : game :=
  mkGame (Some id) (Some id) None (Some "Home") None (Some "Away") (Some start) line h a fin.

Definition pct (w t : nat) : nat := w * 100 / t.

(** An unstarted-at-[10] game with no pick yet. *)
Definition db_c1 : db := mkDb [tgame "g1" 10 (Some 50%Q) None None false] [].

(** A tie, 21-21, line 50; alice picked away/under. *)
Definition db_tie : db :=
  mkDb [tgame "g3" 1 (Some 50%Q) (Some 21%Z) (Some 21%Z) true]
       [mkPick "alice" "g3" "away" "under" 0].

(** 30-20 with a line of exactly 50; alice picked home/under. *)
Definition db_push : db :=
  mkDb [tgame "g4" 1 (Some 50%Q) (Some 30%Z) (Some 20%Z) true]
       [mkPick "alice" "g4" "home" "under" 0].

(** Same final score with a NULL line; alice picked home/over. *)
Definition db_nullline : db :=
  mkDb [tgame "g4" 1 None (Some 30%Z) (Some 20%Z) true]
       [mkPick "alice" "g4" "home" "over" 0].

(** alice picks home/over while the line is 50; the feed later moves the
    line to 60 and the game ends 30-25. *)
Definition db_c5 : db :=
  let s0 := mkDb [tgame "g5" 100 (Some 50%Q) None None false] [] in
  let s1 := fst (make_prediction s0 10 "alice" "g5" "home" "over") in
  let s2 := upsert_games s1 [mkGameRec (Some "g5") (Some "g5") None (Some "Home") None (Some "Away") (Some 100) (Some 60%Q)] in
  update_scores_with_finals s2 [mkEvent (Some "g5") (Some 30%Z) (Some 25%Z) true].

(** 30-24, line 60: alice has the winner right and the total wrong. *)
Definition db_c6 : db :=
  mkDb [tgame "g6" 1 (Some 60%Q) (Some 30%Z) (Some 24%Z) true]
       [mkPick "alice" "g6" "home" "over" 0].

(** Bob and alice each have three fully-correct picks. *)
Definition db_c7 : db :=
  mkDb [tgame "a" 1 (Some 50%Q) (Some 30%Z) (Some 24%Z) true;
        tgame "b" 2 (Some 50%Q) (Some 30%Z) (Some 24%Z) true;
        tgame "c" 3 (Some 50%Q) (Some 30%Z) (Some 24%Z) true]
       [mkPick "Bob" "a" "home" "over" 0; mkPick "Bob" "b" "home" "over" 1;
        mkPick "Bob" "c" "home" "over" 2; mkPick "alice" "a" "home" "over" 3;
        mkPick "alice" "b" "home" "over" 4; mkPick "alice" "c" "home" "over" 5].

(** Sixteen finalized games kicking off at 1..16; alice's only pick is a
    fully-correct one on the latest game. *)
Definition db_c8 : db :=
  mkDb (map (fun n => tgame (String (Ascii.ascii_of_nat (65 + n)) "") (S n)
                            (Some 50%Q) (Some 30%Z) (Some 24%Z) true) (seq 0 16))
       [mkPick "alice" (String (Ascii.ascii_of_nat (65 + 15)) "") "home" "over" 0].

(** A finalized 30-24 game, and a feed event reporting it as not completed. *)
Definition db_c9 : db :=
  mkDb [tgame "g9" 1 (Some 50%Q) (Some 30%Z) (Some 24%Z) true] [].

Definition ev_c9 : final_event := mkEvent (Some "g9") (Some 30%Z) (Some 24%Z) false.

(** A finalized game kicking off at 100 with alice's fully correct pick,
    and fifteen rows with a NULL [game_id] kicking off earlier. *)
Definition gs_late : list game := [tgame "late" 100 (Some 50%Q) (Some 30%Z) (Some 24%Z) true].

Definition null_id_game (n : nat) : game :=
  mkGame None None None None None None (Some n) None None None false.

Definition gs_crowded : list game := (map null_id_game (seq 0 15) ++ gs_late)%list.

Definition ps_late : list pick := [mkPick "alice" "late" "home" "over" 0].

Example ex1 : picks (fst (make_prediction db_c1 20 "alice" "g1" "home" "over"))
              = [mkPick "alice" "g1" "home" "over" 20].
Proof. reflexivity. Qed.
Example ex3 : po_wins (profile_stats pct (games db_tie) (picks db_tie) "alice") = 1.
Proof. vm_compute. reflexivity. Qed.
Example ex3b : leaderboard_groups db_tie = [("alice", 1)].
Proof. vm_compute. reflexivity. Qed.
Example ex4 : po_wins (profile_stats pct (games db_push) (picks db_push) "alice") = 1.
Proof. vm_compute. reflexivity. Qed.
Example ex4b : po_wins (profile_stats pct (games db_nullline) (picks db_nullline) "alice") = 1.
Proof. vm_compute. reflexivity. Qed.
Example ex4c : leaderboard_groups db_nullline = [].
Proof. vm_compute. reflexivity. Qed.
Example ex5 : po_wins (profile_stats pct (games db_c5) (picks db_c5) "alice") = 0.
Proof. vm_compute. reflexivity. Qed.
Example ex6 : leaderboard_groups db_c6 = [].
Proof. vm_compute. reflexivity. Qed.
Example ex7 : leaderboard_groups db_c7 = [("Bob", 3); ("alice", 3)].
Proof. vm_compute. reflexivity. Qed.
Example ex8 : po_current_streak (profile_stats pct (games db_c8) (picks db_c8) "alice") = 0.
Proof. vm_compute. reflexivity. Qed.

(** Scoreboard events used below. *)

Definition ev_demo : sb_event :=
  mkSbEvent (Some "401") (Some "M-OH @ OHIO")
    [mkComp (Some "home") (JVal (mkTeam (JVal "Ohio Bobcats") (Some "195")));
     mkComp (Some "away") (JVal (mkTeam (JVal "Miami (OH) RedHawks") (Some "193")))]
    (Some 100) (Some (Some (91 # 2))).

Definition fetched_demo : fetched_game :=
  mkFetched (Some "401") (Some "M-OH @ OHIO") (Some "195") (Some "Ohio Bobcats")
            (Some "193") (Some "Miami (OH) RedHawks") (Some 100) (Some (91 # 2)).

Definition ev_unlabelled : sb_event :=
  mkSbEvent (Some "402") (Some "A @ B")
    [mkComp (Some "neutral") (JVal (mkTeam (JVal "Team A") (Some "1")));
     mkComp None (JVal (mkTeam (JVal "Team B") (Some "2")))]
    (Some 200) None.

(** * Helper lemmas *)

Section InsertionSort.
Variable A : Type.
Variable le : A -> A -> bool.
Variable R : A -> A -> Prop.
Hypothesis le_R : forall a b, le a b = true -> R a b.
Hypothesis not_le_R : forall a b, le a b = false -> R b a.

Lemma insert_by_perm : forall x l, Permutation (insert_by le x l) (x :: l).
Proof.
  intros x l. induction l as [|y l IH]; simpl; [reflexivity|].
  destruct (le x y); [reflexivity|].
  transitivity (y :: x :: l); [constructor; exact IH | constructor].
Qed.

Lemma sort_by_perm : forall l, Permutation (sort_by le l) l.
Proof.
  induction l as [|x l IH]; simpl; [reflexivity|].
  rewrite insert_by_perm. constructor. exact IH.
Qed.

Lemma insert_by_hdrel : forall y x l,
  HdRel R y l -> R y x -> HdRel R y (insert_by le x l).
Proof.
  intros y x [|z l] Hh Hyx; simpl; [constructor; exact Hyx|].
  destruct (le x z); constructor; [exact Hyx | inversion Hh; assumption].
Qed.

Lemma insert_by_sorted : forall x l, Sorted R l -> Sorted R (insert_by le x l).
Proof.
  intros x l. induction l as [|y l IH]; intros Hs; simpl; [repeat constructor|].
  inversion Hs; subst. destruct (le x y) eqn:E.
  - constructor; [exact Hs | constructor; apply le_R; exact E].
  - constructor; [apply IH; assumption |].
    apply insert_by_hdrel; [assumption | apply not_le_R; exact E].
Qed.

Lemma sort_by_sorted : forall l, Sorted R (sort_by le l).
Proof.
  induction l as [|x l IH]; simpl; [constructor | apply insert_by_sorted; exact IH].
Qed.
End InsertionSort.

Definition pick_key (p : pick) : string * string := (user p, pick_game_id p).

Lemma pick_key_is_spec : forall u gid p,
  pick_key_is u gid p = true <-> pick_key p = (u, gid).
Proof.
  intros u gid p. unfold pick_key_is, pick_key.
  rewrite andb_true_iff, !String.eqb_eq. split.
  - intros [-> ->]. reflexivity.
  - intros H. inversion H. auto.
Qed.

Lemma existsb_key_false : forall u gid l,
  existsb (pick_key_is u gid) l = false -> ~ In (u, gid) (map pick_key l).
Proof.
  intros u gid l H Hin. apply in_map_iff in Hin as [p [Hk Hp]].
  assert (existsb (pick_key_is u gid) l = true) as Ht.
  { apply existsb_exists. exists p. split; [exact Hp | apply pick_key_is_spec; exact Hk]. }
  congruence.
Qed.

Lemma existsb_key_true : forall u gid l p,
  In p l -> pick_key p = (u, gid) -> existsb (pick_key_is u gid) l = true.
Proof.
  intros u gid l p Hp Hk. apply existsb_exists. exists p.
  split; [exact Hp | apply pick_key_is_spec; exact Hk].
Qed.


(** Closes the goals of the comparison case analyses on [Q]. *)
Ltac q_close :=
  first
  [ discriminate | reflexivity | assumption
  | match goal with
    | H : (?x < ?y)%Q, H' : (?y <= ?x)%Q |- _ => exfalso; exact (Qlt_not_le _ _ H H')
    | H : exists q, None = Some q /\ _ |- _ =>
        let Hq := fresh in destruct H as [? [Hq ?]]; discriminate
    | H : exists q, Some _ = Some q /\ _ |- _ =>
        let Hq := fresh in destruct H as [? [Hq ?]]; inversion Hq; subst; q_close
    | H : Some _ = Some _ |- _ => inversion H; subst; clear H; q_close
    | H : forall q, Some ?p = Some q -> _ |- _ => specialize (H p eq_refl); q_close
    | |- exists q, Some ?p = Some q /\ _ => exists p; split; [reflexivity | assumption]
    end ].

(** * Claims *)

(** C1 (counterexample).  The claim: a submission at or after kickoff fails
    with [LockedError] and leaves the stored prediction unchanged.  Game
    [g1] kicks off at [10]; a submission at [20] is not refused: it adds a
    pick and answers with the usual redirect. *)
Lemma make_prediction_after_kickoff_inserts :
  (exists g, find_game (games db_c1) "g1" = Some g /\ start_utc g = Some 10) /\
  10 <= 20 /\
  picks (fst (make_prediction db_c1 20 "alice" "g1" "home" "over")) <> picks db_c1 /\
  snd (make_prediction db_c1 20 "alice" "g1" "home" "over") = "/games?user=alice".
Proof.
  split; [eexists; split; reflexivity |].
  split; [lia |]. split; [simpl; discriminate | reflexivity].
Qed.

(** C1 (amended).  [make_prediction] consults no kickoff time and never
    fails: at any [now] it answers with the redirect, leaves the games
    alone, leaves the picks unchanged when a pick for (user, game) exists,
    and otherwise appends the submitted pick stamped [now]. *)
Theorem make_prediction_no_lock_gate : forall s now u gid w t,
  snd (make_prediction s now u gid w t) = "/games?user=" ++ u /\
  games (fst (make_prediction s now u gid w t)) = games s /\
  picks (fst (make_prediction s now u gid w t)) =
    (if existsb (pick_key_is u gid) (picks s) then picks s
     else (picks s ++ [mkPick u gid w t now])%list).
Proof.
  intros s now u gid w t. unfold make_prediction; simpl.
  destruct (existsb (pick_key_is u gid) (picks s)); auto.
Qed.

(** C2 (counterexample).  The claim: a second submission before lock
    overwrites the first (last write wins).  alice submits home/over and
    then away/under for [g1]: the stored pick keeps home/over. *)
Lemma second_submit_keeps_first :
  let s := fst (make_prediction db_c1 5 "alice" "g1" "home" "over") in
  let s' := fst (make_prediction s 6 "alice" "g1" "away" "under") in
  map (fun p => (pick_winner p, pick_total p)) (filter (pick_key_is "alice" "g1") (picks s'))
  = [("home", "over")].
Proof. reflexivity. Qed.

(** C2 (amended).  [make_prediction] keeps at most one pick per
    (user, game), and once a pick for (user, game) exists a later submission
    leaves the picks unchanged (first write wins). *)
Theorem make_prediction_first_write_wins : forall s now u gid w t,
  NoDup (map pick_key (picks s)) ->
  NoDup (map pick_key (picks (fst (make_prediction s now u gid w t)))) /\
  (forall p, In p (picks s) -> pick_key p = (u, gid) ->
     picks (fst (make_prediction s now u gid w t)) = picks s).
Proof.
  intros s now u gid w t Hnd. unfold make_prediction; simpl. split.
  - destruct (existsb (pick_key_is u gid) (picks s)) eqn:E; simpl; [exact Hnd |].
    rewrite map_app. simpl.
    apply (Permutation_NoDup (l := pick_key (mkPick u gid w t now) :: map pick_key (picks s))).
    + apply Permutation_cons_append.
    + constructor; [apply existsb_key_false; exact E | exact Hnd].
  - intros p Hp Hk. rewrite (existsb_key_true _ _ _ _ Hp Hk). reflexivity.
Qed.

Lemma make_prediction_first_write_wins_witness :
  NoDup (map pick_key (picks (fst (make_prediction db_c1 5 "alice" "g1" "home" "over")))) /\
  NoDup (map pick_key (picks (fst (make_prediction
     (fst (make_prediction db_c1 5 "alice" "g1" "home" "over")) 6 "alice" "g1" "away" "under")))).
Proof.
  assert (H : NoDup (map pick_key (picks (fst (make_prediction db_c1 5 "alice" "g1" "home" "over"))))).
  { simpl. constructor; [simpl; tauto | constructor]. }
  split; [exact H |].
  exact (proj1 (make_prediction_first_write_wins _ 6 "alice" "g1" "away" "under" H)).
Defined.

(** C3 (counterexample).  The claim: on a tie neither side is
    winner-correct.  On the 21-21 game [g3] an away/under pick is counted
    as a fully-correct pick by the profile and by the leaderboard, so the
    away side was credited as the winner. *)
Lemma tie_credits_away :
  profile_actual_winner 21 21 = "away" /\
  po_wins (profile_stats pct (games db_tie) (picks db_tie) "alice") = 1 /\
  leaderboard_groups db_tie = [("alice", 1)].
Proof. vm_compute. repeat split; reflexivity. Qed.

(** C3 (amended).  With both final scores present, the actual winner is
    "home" exactly when the home score is strictly higher and "away"
    otherwise, in the profile and in the leaderboard; so on a tie an away
    pick is winner-correct and a home pick is not.  Both are total
    functions (no crash). *)
Theorem winner_rule_tie_goes_away : forall g h a,
  final_home_score g = Some h -> final_away_score g = Some a ->
  (profile_actual_winner h a = "home" <-> (a < h)%Z) /\
  (profile_actual_winner h a = "away" <-> (h <= a)%Z) /\
  (lb_winner g = "home" <-> (a < h)%Z) /\
  (lb_winner g = "away" <-> (h <= a)%Z).
Proof.
  intros g h a Hh Ha. unfold lb_winner, profile_actual_winner, sql_gt_z.
  rewrite Hh, Ha.
  destruct (a <? h)%Z eqn:E;
    [apply Z.ltb_lt in E | apply Z.ltb_ge in E];
    repeat split; intros; try discriminate; try reflexivity; lia.
Qed.

Lemma winner_rule_tie_goes_away_witness :
  profile_actual_winner 21 21 = "away" /\ lb_winner (tgame "g3" 1 None (Some 21%Z) (Some 21%Z) true) = "away".
Proof.
  destruct (winner_rule_tie_goes_away (tgame "g3" 1 None (Some 21%Z) (Some 21%Z) true) 21 21
              eq_refl eq_refl) as [_ [Hp [_ Hl]]].
  split; [apply Hp | apply Hl]; lia.
Defined.

(** C4 (counterexample).  The claim: a NULL line credits no total, and an
    exact tie with the line credits neither direction.  On [db_push]
    (30-20, line 50) an under pick is credited by the profile, and on
    [db_nullline] (NULL line) an over pick is credited by the profile. *)
Lemma push_and_null_line_credited :
  profile_ou_result 50 (Some 50%Q) = "under" /\
  po_wins (profile_stats pct (games db_push) (picks db_push) "alice") = 1 /\
  leaderboard_groups db_push = [("alice", 1)] /\
  po_wins (profile_stats pct (games db_nullline) (picks db_nullline) "alice") = 1.
Proof. vm_compute. repeat split; reflexivity. Qed.

(** C4 (amended).  With both final scores present, the profile credits
    "over" exactly when the total exceeds the line (a NULL line counting
    as 0) and "under" otherwise, an exact tie included; the leaderboard
    credits "over" exactly when the line is present and the total exceeds
    it, and "under" otherwise (a NULL line or an exact tie included). *)
Theorem total_rule_profile_leaderboard : forall g h a,
  final_home_score g = Some h -> final_away_score g = Some a ->
  (profile_ou_result (h + a) (over_under g) = "over"
     <-> (or_zero (over_under g) < inject_Z (h + a))%Q) /\
  (profile_ou_result (h + a) (over_under g) = "under"
     <-> (inject_Z (h + a) <= or_zero (over_under g))%Q) /\
  (lb_total g = "over"
     <-> exists q, over_under g = Some q /\ (q < inject_Z (h + a))%Q) /\
  (lb_total g = "under"
     <-> forall q, over_under g = Some q -> (inject_Z (h + a) <= q)%Q).
Proof.
  intros g h a Hh Ha. unfold profile_ou_result, lb_total, sql_gt_q, sql_add.
  rewrite Hh, Ha.
  assert (Hp : forall x y : Q,
    (negb (Qle_bool x y) = true <-> (y < x)%Q) /\ (negb (Qle_bool x y) = false <-> (x <= y)%Q)).
  { intros x y. rewrite negb_true_iff, negb_false_iff, <- Qle_bool_iff. split; split.
    - intros H. apply Qnot_le_lt. rewrite <- Qle_bool_iff. congruence.
    - intros H. destruct (Qle_bool x y) eqn:E; [|reflexivity].
      apply Qle_bool_iff in E. exfalso. apply (Qlt_not_le _ _ H E).
    - auto.
    - auto. }
  destruct (over_under g) as [q|]; simpl;
    [destruct (Hp (inject_Z (h + a)) q) as [Ht Hf];
     destruct (negb (Qle_bool (inject_Z (h + a)) q)) eqn:E
    |destruct (Hp (inject_Z (h + a)) 0%Q) as [Ht Hf];
     destruct (negb (Qle_bool (inject_Z (h + a)) 0)) eqn:E];
    [pose proof (proj1 Ht eq_refl) | pose proof (proj1 Hf eq_refl)
    |pose proof (proj1 Ht eq_refl) | pose proof (proj1 Hf eq_refl)];
    repeat split; intros; q_close.
Qed.

Lemma total_rule_profile_leaderboard_witness :
  profile_ou_result 50 (Some 50%Q) = "under" /\
  lb_total (tgame "g4" 1 (Some 50%Q) (Some 30%Z) (Some 20%Z) true) = "under".
Proof.
  destruct (total_rule_profile_leaderboard (tgame "g4" 1 (Some 50%Q) (Some 30%Z) (Some 20%Z) true)
              30 20 eq_refl eq_refl) as [_ [Hp [_ Hl]]].
  split.
  - apply Hp. simpl. unfold Qle. simpl. lia.
  - apply Hl. intros q Hq. inversion Hq. unfold Qle. simpl. lia.
Defined.

Lemma find_game_map_same_id : forall f gs gid,
  (forall g, game_id (f g) = game_id g) ->
  find_game (map f gs) gid = option_map f (find_game gs gid).
Proof.
  intros f gs gid Hf. unfold find_game. induction gs as [|g gs IH]; simpl; [reflexivity|].
  rewrite Hf. destruct (key_is (game_id g) gid); [reflexivity | exact IH].
Qed.

Lemma key_is_spec : forall k x, key_is k x = true <-> k = Some x.
Proof.
  intros [y|] x; simpl; [rewrite String.eqb_eq; split; congruence | split; discriminate].
Qed.

Lemma find_game_some : forall gs gid g,
  find_game gs gid = Some g -> In g gs /\ game_id g = Some gid.
Proof.
  intros gs gid g H. unfold find_game in H. apply find_some in H as [Hin He].
  apply key_is_spec in He. auto.
Qed.

(** C5 (counterexample).  The claim: a pick freezes the game's line and is
    judged against it.  In [db_c5] alice picks home/over while the line is
    50; the feed then moves the line to 60 and the game ends 30-25.
    Against the line of pick time the pick is fully correct (home wins,
    55 > 50), yet the profile reports no win and the leaderboard lists
    nobody, because both read the line the game row holds now. *)
Lemma line_not_frozen_at_pick :
  profile_actual_winner 30 25 = "home" /\
  profile_ou_result (30 + 25) (Some 50%Q) = "over" /\
  option_map over_under (find_game (games db_c5) "g5") = Some (Some 60%Q) /\
  po_wins (profile_stats pct (games db_c5) (picks db_c5) "alice") = 0 /\
  leaderboard_groups db_c5 = [].
Proof. vm_compute. repeat split; reflexivity. Qed.

Lemma make_prediction_games : forall s now u gid w t,
  games (fst (make_prediction s now u gid w t)) = games s /\
  (picks (fst (make_prediction s now u gid w t)) = picks s \/
   picks (fst (make_prediction s now u gid w t)) = (picks s ++ [mkPick u gid w t now])%list).
Proof.
  intros s now u gid w t. unfold make_prediction. simpl.
  destruct (existsb (pick_key_is u gid) (picks s)); simpl; auto.
Qed.

Lemma find_app_l : forall {A} (f : A -> bool) l1 l2,
  find f (l1 ++ l2) = match find f l1 with Some x => Some x | None => find f l2 end.
Proof.
  intros A f l1 l2. induction l1 as [|y l1 IH]; simpl; [reflexivity|].
  destruct (f y); [reflexivity | exact IH].
Qed.

Lemma find_game_app_absent : forall gs g x,
  key_is (game_id g) x = false -> find_game (gs ++ [g]) x = find_game gs x.
Proof.
  intros gs g x H. unfold find_game. rewrite find_app_l.
  destruct (find _ gs); [reflexivity|]. simpl. rewrite H. reflexivity.
Qed.

Lemma find_game_none_app : forall gs g x,
  find_game gs x = None -> key_is (game_id g) x = true -> find_game (gs ++ [g]) x = Some g.
Proof.
  intros gs g x H Hg. unfold find_game in *. rewrite find_app_l, H. simpl. rewrite Hg. reflexivity.
Qed.

Lemma upsert_one_find : forall gs r x,
  option_map over_under (find_game (upsert_one gs r) x) =
  if key_is (g_game_id r) x then Some (g_over_under r)
  else option_map over_under (find_game gs x).
Proof.
  intros gs r x. unfold upsert_one.
  destruct (g_game_id r) as [id|] eqn:Er; simpl.
  - destruct (String.eqb id x) eqn:Ex.
    + apply String.eqb_eq in Ex. subst x.
      destruct (existsb (fun g => key_is (game_id g) id) gs) eqn:Eh.
      * rewrite find_game_map_same_id
          by (intros g; destruct (key_is (game_id g) id); reflexivity).
        destruct (find_game gs id) as [g|] eqn:Ef.
        -- destruct (find_game_some _ _ _ Ef) as [_ Hid]. simpl.
           rewrite Hid. simpl. rewrite String.eqb_refl. reflexivity.
        -- exfalso. apply existsb_exists in Eh as [g [Hg Hk]].
           unfold find_game in Ef. pose proof (find_none _ _ Ef g Hg). congruence.
      * destruct (find_game gs id) as [g|] eqn:Ef.
        -- exfalso. destruct (find_game_some _ _ _ Ef) as [Hg Hid].
           assert (existsb (fun g => key_is (game_id g) id) gs = true)
             by (apply existsb_exists; exists g; split; [exact Hg | apply key_is_spec; exact Hid]).
           congruence.
        -- rewrite (find_game_none_app _ _ _ Ef); [reflexivity|].
           simpl. rewrite Er. simpl. apply String.eqb_refl.
    + destruct (existsb (fun g => key_is (game_id g) id) gs).
      * rewrite find_game_map_same_id
          by (intros g; destruct (key_is (game_id g) id); reflexivity).
        destruct (find_game gs x) as [g|] eqn:Ef; [|reflexivity].
        destruct (find_game_some _ _ _ Ef) as [_ Hid]. simpl. rewrite Hid. simpl.
        rewrite String.eqb_sym, Ex. reflexivity.
      * rewrite find_game_app_absent; [reflexivity|]. simpl. rewrite Er. simpl.
        exact Ex.
  - rewrite find_game_app_absent; [reflexivity|]. simpl. rewrite Er. reflexivity.
Qed.

Lemma last_rec_for_snoc : forall rs r x,
  last_rec_for (rs ++ [r]) x =
  if key_is (g_game_id r) x then Some r else last_rec_for rs x.
Proof.
  intros rs r x. unfold last_rec_for. rewrite rev_app_distr. simpl.
  destruct (key_is (g_game_id r) x); reflexivity.
Qed.

Lemma upsert_games_line : forall s rs x,
  option_map over_under (find_game (games (upsert_games s rs)) x) =
  match last_rec_for rs x with
  | Some r => Some (g_over_under r)
  | None => option_map over_under (find_game (games s) x)
  end.
Proof.
  intros s rs x. unfold upsert_games. simpl.
  induction rs as [|r rs IH] using rev_ind; [reflexivity|].
  rewrite fold_left_app. simpl. rewrite upsert_one_find, last_rec_for_snoc.
  destruct (key_is (g_game_id r) x); [reflexivity | exact IH].
Qed.

Lemma profile_rows_join : forall gs ps u p og,
  In (p, og) (profile_rows gs ps u) -> og = find_game gs (pick_game_id p) /\ In p ps.
Proof.
  intros gs ps u p og H. unfold profile_rows in H.
  destruct (top_game_ids gs); [destruct H|].
  apply (Permutation_in _ (sort_by_perm _ made_le _)) in H.
  apply in_map_iff in H as [p' [Hp Hin]]. inversion Hp; subst.
  apply filter_In in Hin. split; [reflexivity | apply Hin].
Qed.

Lemma lb_join_spec : forall s p g,
  In (p, g) (lb_join s) <-> In p (picks s) /\ In g (games s) /\ game_id g = Some (pick_game_id p).
Proof.
  intros s p g. unfold lb_join. rewrite in_flat_map. split.
  - intros [p' [Hp' Hin]]. apply in_map_iff in Hin as [g' [Hpg Hg']].
    inversion Hpg; subst. apply filter_In in Hg' as [Hg Hk].
    apply key_is_spec in Hk. auto.
  - intros [Hp [Hg Hk]]. exists p. split; [exact Hp|]. apply in_map_iff.
    exists g. split; [reflexivity|]. apply filter_In. split; [exact Hg | apply key_is_spec; exact Hk].
Qed.

(** C5 (amended).  A pick stores no line: [make_prediction] leaves the
    [games] table as it is and stores only user, game, winner, total and
    time.  After [upsert_games] of any batch, the line of game [x] is the
    line of the batch's last record for [x] (the old line when the batch
    has none).  The profile scores each pick against the [games] row the
    pick joins at scoring time, and counts a win exactly when the total is
    right against that row's [over_under]; the leaderboard joins each pick
    with the current row and judges the total against the same column. *)
Theorem scoring_reads_current_line : forall s now u gid w t rs x,
  games (fst (make_prediction s now u gid w t)) = games s /\
  (picks (fst (make_prediction s now u gid w t)) = picks s \/
   picks (fst (make_prediction s now u gid w t)) = (picks s ++ [mkPick u gid w t now])%list) /\
  option_map over_under (find_game (games (upsert_games s rs)) x) =
    match last_rec_for rs x with
    | Some r => Some (g_over_under r)
    | None => option_map over_under (find_game (games s) x)
    end /\
  (forall gs ps u' p og, In (p, og) (profile_rows gs ps u') -> og = find_game gs (pick_game_id p)) /\
  (forall st p g h a,
     is_final g = true -> final_home_score g = Some h -> final_away_score g = Some a ->
     wins (profile_step st (p, Some g)) =
     wins st + (if String.eqb (pick_winner p) (profile_actual_winner h a)
                   && String.eqb (pick_total p) (profile_ou_result (h + a)%Z (over_under g))
                then 1 else 0)) /\
  (forall s' p g, In (p, g) (lb_join s') <->
     In p (picks s') /\ In g (games s') /\ game_id g = Some (pick_game_id p)) /\
  (forall p g, lb_qualifies p g =
     is_final g && String.eqb (pick_winner p) (lb_winner g)
     && String.eqb (pick_total p)
          (match sql_gt_q (sql_add (final_home_score g) (final_away_score g)) (over_under g) with
           | Some true => "over"
           | _ => "under"
           end)).
Proof.
  intros s now u gid w t rs x.
  destruct (make_prediction_games s now u gid w t) as [Hg Hp].
  split; [exact Hg|]. split; [exact Hp|]. split; [apply upsert_games_line|].
  split; [intros gs ps u' p og H; apply (profile_rows_join gs ps u' p og H)|].
  split.
  - intros st p g h a Hf Hh Ha. simpl. rewrite Hf, Hh, Ha. simpl.
    destruct (_ && _); simpl; lia.
  - split; [apply lb_join_spec | reflexivity].
Qed.

Lemma length_filter_pos : forall {A} (f : A -> bool) l,
  0 < length (filter f l) <-> exists x, In x l /\ f x = true.
Proof.
  intros A f l. induction l as [|x l IH]; simpl.
  - split; [lia | intros [? [[] _]]].
  - destruct (f x) eqn:E; simpl.
    + split; [intros _; exists x; auto | lia].
    + rewrite IH. split.
      * intros [y [Hy Hf]]. exists y. auto.
      * intros [y [[<- | Hy] Hf]]; [congruence | exists y; auto].
Qed.

Lemma lb_count_pos : forall s u,
  0 < lb_count s u <-> In u (map (fun pg => user (fst pg)) (lb_rows s)).
Proof.
  intros s u. unfold lb_count. rewrite length_filter_pos, in_map_iff. split.
  - intros [pg [Hin He]]. apply String.eqb_eq in He. exists pg. auto.
  - intros [pg [He Hin]]. exists pg. split; [exact Hin | apply String.eqb_eq; exact He].
Qed.

(** C6 (counterexample).  The claim: a prediction earns one point per
    correct component and every user with a scored prediction is counted.
    In [db_c6] alice has the winner right (30-24, home) and the total wrong
    (54 < 60): one point by the claim, yet no leaderboard result lists
    alice with 1. *)
Lemma winner_only_pick_not_on_board :
  lb_winner (tgame "g6" 1 (Some 60%Q) (Some 30%Z) (Some 24%Z) true) = "home" /\
  ~ exists board, leaderboard_result db_c6 board /\ In ("alice", 1) board.
Proof.
  split; [reflexivity |].
  intros [board [[Hp _] Hin]].
  rewrite ex6 in Hp. apply Permutation_nil in Hp. subst board. exact Hin.
Qed.

(** C6 (amended).  In every result of the leaderboard query, a user [u]
    is listed with [n] exactly when [n] is the number of [u]'s picks,
    joined to a finalized game, that have both the winner and the total
    right under the leaderboard's rule, and this number is positive; a
    pick contributes 0 or 1. *)
Theorem leaderboard_counts_fully_correct : forall s board,
  leaderboard_result s board ->
  forall u n, In (u, n) board <-> n = lb_count s u /\ 0 < n.
Proof.
  intros s board [Hp _] u n. split.
  - intros Hin. apply (Permutation_in _ (Permutation_sym Hp)) in Hin.
    unfold leaderboard_groups in Hin. apply in_map_iff in Hin as [u' [He Hu']].
    inversion He; subst. apply nodup_In in Hu'. split; [reflexivity|].
    apply lb_count_pos. exact Hu'.
  - intros [-> Hpos]. apply (Permutation_in _ Hp). unfold leaderboard_groups.
    apply in_map_iff. exists u. split; [reflexivity|].
    apply nodup_In, lb_count_pos. exact Hpos.
Qed.

Lemma db_c7_bob_first : leaderboard_result db_c7 [("Bob", 3); ("alice", 3)].
Proof.
  split.
  - rewrite ex7. apply Permutation_refl.
  - repeat constructor.
Qed.

Lemma leaderboard_counts_fully_correct_witness :
  (In ("alice", 3) [("Bob", 3); ("alice", 3)] <-> 3 = lb_count db_c7 "alice" /\ 0 < 3).
Proof.
  exact (leaderboard_counts_fully_correct db_c7 _ db_c7_bob_first "alice" 3).
Defined.


Definition count_desc (a b : string * nat) : bool := Nat.leb (snd b) (snd a).

(** C7 (counterexample).  The claim: equal counts are ordered by username
    ascending, case-insensitively, so alice precedes Bob.  The query only
    orders by the count: with Bob and alice both at 3, the order
    [Bob, alice] is a result of the query (it is also the one SQLite's
    binary collation puts first when grouping). *)
Lemma leaderboard_tie_order_unconstrained :
  ~ (forall board, leaderboard_result db_c7 board -> board = [("alice", 3); ("Bob", 3)]).
Proof.
  intros H. specialize (H _ db_c7_bob_first). discriminate H.
Qed.

(** C7 (amended).  The query always has a result, every result is ordered
    by count descending, and no tie-break is imposed: any rearrangement of
    a result that is still ordered by count descending is a result too. *)
Theorem leaderboard_order_count_only : forall s,
  (exists board, leaderboard_result s board) /\
  (forall board board', leaderboard_result s board ->
     Permutation board board' -> Sorted count_ge board' -> leaderboard_result s board').
Proof.
  intros s. split.
  - exists (sort_by count_desc (leaderboard_groups s)). split.
    + symmetry. apply sort_by_perm.
    + apply (sort_by_sorted _ count_desc count_ge).
      * intros a b H. apply Nat.leb_le. exact H.
      * intros a b H. apply Nat.leb_gt in H. unfold count_ge. lia.
  - intros board board' [Hp _] Hp' Hs. split; [| exact Hs].
    transitivity board; assumption.
Qed.

(** The profile loop keeps [current_streak] at 0 unless the last scored
    pick was a win. *)
Definition streak_inv (st : pstate) : Prop :=
  last_was_win st <> Some true -> current_streak st = 0.

Lemma profile_step_streak : forall st r,
  streak_inv st ->
  streak_inv (profile_step st r) /\
  current_streak (profile_step st r) = fold_left streak_step (row_flag r) (current_streak st).
Proof.
  intros st [p [g|]] Hinv; simpl; [|split; [exact Hinv | reflexivity]].
  destruct (is_final g); simpl; [|split; [exact Hinv | reflexivity]].
  destruct (final_home_score g) as [home|], (final_away_score g) as [away|]; simpl;
    try (split; [exact Hinv | reflexivity]).
  destruct (String.eqb (pick_winner p) (profile_actual_winner home away)
            && String.eqb (pick_total p) (profile_ou_result (home + away)%Z (over_under g)));
    simpl; unfold streak_inv; simpl.
  - split; [intros H; congruence |].
    destruct (last_was_win st) as [[|]|] eqn:E; simpl; try reflexivity.
    rewrite Hinv by congruence. reflexivity.
  - split; reflexivity.
Qed.

Lemma profile_loop_streak : forall rows st,
  streak_inv st ->
  current_streak (fold_left profile_step rows st)
  = fold_left streak_step (scored_flags rows) (current_streak st).
Proof.
  induction rows as [|r rows IH]; intros st Hinv; simpl; [reflexivity|].
  unfold scored_flags in *. rewrite fold_left_app.
  destruct (profile_step_streak st r Hinv) as [Hinv' Hc].
  rewrite <- Hc. apply IH. exact Hinv'.
Qed.

(** C8 (counterexample).  The claim: the streak walks all of the user's
    scored results over finalized games.  In [db_c8] alice's only pick is
    fully correct, on the sixteenth-earliest finalized game; walking all
    her scored results gives 1, the profile reports 0. *)
Lemma streak_ignores_late_games :
  streak_walk (scored_flags
    (map (fun p => (p, find_game (games db_c8) (pick_game_id p)))
         (filter (fun p => String.eqb (user p) "alice") (picks db_c8)))) = 1 /\
  po_current_streak (profile_stats pct (games db_c8) (picks db_c8) "alice") = 0.
Proof. vm_compute. split; reflexivity. Qed.

(** C8 (amended).  The reported streak is the spec's walk (increment on a
    fully-correct result, reset to 0 otherwise) over the user's picks on
    the 15 earliest-kickoff games, ordered by [made_at], keeping only
    finalized games with both scores present; on [true; true; false; true]
    the walk gives 1. *)
Theorem profile_streak_is_walk : forall win_rate_of gs ps u,
  po_current_streak (profile_stats win_rate_of gs ps u)
  = streak_walk (scored_flags (profile_rows gs ps u)) /\
  streak_walk [true; true; false; true] = 1.
Proof.
  intros win_rate_of gs ps u. split; [| reflexivity].
  unfold profile_stats, profile_loop, streak_walk; simpl.
  apply profile_loop_streak. unfold streak_inv. reflexivity.
Qed.

Lemma upsert_one_id_finals : forall gs r,
  exists added, map id_finals (upsert_one gs r) = (map id_finals gs ++ added)%list /\
                Forall (fun k => snd k = (None, None, false)) added.
Proof.
  intros gs r. unfold upsert_one.
  assert (Hnew : exists added, map id_finals (gs ++ [new_game r]) = (map id_finals gs ++ added)%list /\
                Forall (fun k => snd k = (None, None, false)) added).
  { exists [id_finals (new_game r)]. rewrite map_app. split; [reflexivity|].
    repeat constructor. }
  destruct (g_game_id r) as [id|]; [|exact Hnew].
  destruct (existsb _ gs); [|exact Hnew].
  exists []. rewrite app_nil_r, map_map. split; [|constructor].
  apply map_ext. intros g. destruct (key_is (game_id g) id); reflexivity.
Qed.

Lemma upsert_fold_id_finals : forall rs gs,
  exists added, map id_finals (fold_left upsert_one rs gs) = (map id_finals gs ++ added)%list /\
                Forall (fun k => snd k = (None, None, false)) added.
Proof.
  induction rs as [|r rs IH]; intros gs; simpl.
  - exists []. rewrite app_nil_r. split; [reflexivity | constructor].
  - destruct (upsert_one_id_finals gs r) as [a1 [H1 F1]].
    destruct (IH (upsert_one gs r)) as [a2 [H2 F2]].
    exists (a1 ++ a2)%list. rewrite H2, H1, app_assoc. split; [reflexivity|].
    apply Forall_app. auto.
Qed.

Lemma last_event_for_snoc : forall evs e k,
  last_event_for (evs ++ [e]) k = if ev_names e k then Some e else last_event_for evs k.
Proof.
  intros evs e k. unfold last_event_for. rewrite rev_app_distr. simpl.
  destruct (ev_names e k); reflexivity.
Qed.

Lemma apply_final_id_finals : forall gs e,
  map id_finals (apply_final gs e) =
  map (fun g => (game_id g, if ev_names e (game_id g)
                            then (ev_home_score e, ev_away_score e, ev_completed e)
                            else finals g)) gs.
Proof.
  intros gs e. unfold apply_final, ev_names.
  destruct (ev_gid e) as [gid|].
  - rewrite map_map. apply map_ext. intros g. destruct (key_is (game_id g) gid); reflexivity.
  - apply map_ext. intros g. reflexivity.
Qed.

(** C9 (counterexample).  The claim: [is_final] never returns to false and
    the final scores never change after finalization.  [g9] is finalized;
    a feed event for it with [completed] false makes it not finalized. *)
Lemma finalized_can_revert :
  option_map is_final (find_game (games db_c9) "g9") = Some true /\
  option_map is_final
    (find_game (games (update_scores_with_finals db_c9 [ev_c9])) "g9") = Some false.
Proof. split; reflexivity. Qed.

(** C9 (amended).  [upsert_games] never writes the final scores or
    [is_final]: after it, the rows that were there keep their position,
    their id, their score fields and [is_final], and every row it adds has
    no scores and [is_final] false.  After [update_scores_with_finals] of a
    batch of events, each row carries the scores and [completed] flag of
    the last event that names it, whatever they were before (so a finalized
    game can become not finalized and its scores can change), and a row no
    event names keeps its own. *)
Theorem finals_written_only_by_update : forall s rs evs,
  (exists added,
     map id_finals (games (upsert_games s rs)) = (map id_finals (games s) ++ added)%list /\
     Forall (fun k => snd k = (None, None, false)) added) /\
  map id_finals (games (update_scores_with_finals s evs)) =
  map (fun g => (game_id g, match last_event_for evs (game_id g) with
                            | Some e => (ev_home_score e, ev_away_score e, ev_completed e)
                            | None => finals g
                            end)) (games s).
Proof.
  intros s rs evs. split; [apply upsert_fold_id_finals|].
  unfold update_scores_with_finals. simpl.
  induction evs as [|e evs IH] using rev_ind; [reflexivity|].
  rewrite fold_left_app. simpl. rewrite apply_final_id_finals.
  assert (Hid : map game_id (fold_left apply_final evs (games s)) = map game_id (games s)).
  { assert (H := f_equal (map fst) IH). rewrite !map_map in H. exact H. }
  assert (Hf : forall G, map (fun g => (game_id g, if ev_names e (game_id g)
                            then (ev_home_score e, ev_away_score e, ev_completed e)
                            else finals g)) G =
                         map (fun k => (fst k, if ev_names e (fst k)
                            then (ev_home_score e, ev_away_score e, ev_completed e)
                            else snd k)) (map id_finals G)).
  { intros G. rewrite map_map. reflexivity. }
  rewrite Hf, IH, map_map. apply map_ext. intros g. simpl.
  rewrite last_event_for_snoc. destruct (ev_names e (game_id g)); reflexivity.
Qed.

Lemma filter_andb : forall {A} (f g : A -> bool) l,
  filter (fun x => f x && g x) l = filter f (filter g l).
Proof.
  intros A f g l. induction l as [|x l IH]; simpl; [reflexivity|].
  rewrite IH. destruct (g x) eqn:Eg, (f x) eqn:Ef; simpl; rewrite ?Ef; reflexivity.
Qed.

(** C10.  The profile statistics and badge decisions depend on the user's
    picks only through the picks on the 15 earliest-kickoff games: two pick
    tables that agree there give the same win rate, streak and badges. *)
Theorem profile_only_top_games : forall win_rate_of gs ps1 ps2 u,
  filter (in_top gs) ps1 = filter (in_top gs) ps2 ->
  profile_stats win_rate_of gs ps1 u = profile_stats win_rate_of gs ps2 u.
Proof.
  intros win_rate_of gs ps1 ps2 u H.
  assert (Hr : profile_rows gs ps1 u = profile_rows gs ps2 u).
  { unfold profile_rows. destruct (top_game_ids gs); [reflexivity|].
    rewrite !(filter_andb (fun p => String.eqb (user p) u) (in_top gs)), H.
    reflexivity. }
  unfold profile_stats. rewrite Hr. reflexivity.
Qed.

Lemma profile_only_top_games_witness :
  filter (in_top (games db_c8)) (picks db_c8) = filter (in_top (games db_c8)) [] /\
  profile_stats pct (games db_c8) (picks db_c8) "alice" = profile_stats pct (games db_c8) [] "alice".
Proof.
  assert (H : filter (in_top (games db_c8)) (picks db_c8) = filter (in_top (games db_c8)) []).
  { vm_compute. reflexivity. }
  split; [exact H | exact (profile_only_top_games pct _ _ _ "alice" H)].
Defined.

(** * Further properties of the code *)

Open Scope list_scope.

(** ** Ingestion *)

(** The [DO UPDATE] a record applies to one row. *)
Definition upd (r : game_rec) (g : game) : game :=
  match g_game_id r with
  | Some id => if key_is (game_id g) id then update_descr r g else g
  | None => g
  end.

(** The combined effect of a batch on one row whose id is already present. *)
Definition upd_all (rs : list game_rec) (g : game) : game :=
  fold_left (fun g r => upd r g) rs g.

Definition id_in (gs : list game) (x : string) : bool :=
  existsb (fun g => key_is (game_id g) x) gs.

Definition no_id (r : game_rec) : bool :=
  match g_game_id r with None => true | Some _ => false end.

Lemma id_in_map : forall f gs x,
  (forall g, game_id (f g) = game_id g) -> id_in (map f gs) x = id_in gs x.
Proof.
  intros f gs x Hf. induction gs as [|g gs IH]; simpl; [reflexivity|].
  rewrite Hf, IH. reflexivity.
Qed.

Lemma upd_id : forall r g, game_id (upd r g) = game_id g.
Proof.
  intros r g. unfold upd. destruct (g_game_id r); [|reflexivity].
  destruct (key_is _ _); reflexivity.
Qed.

Lemma upd_all_id_finals : forall rs g,
  game_id (upd_all rs g) = game_id g /\ finals (upd_all rs g) = finals g.
Proof.
  induction rs as [|r rs IH]; intros g; simpl; [auto|].
  destruct (IH (upd r g)) as [H1 H2]. rewrite H1, H2.
  unfold upd. destruct (g_game_id r); [|auto]. destruct (key_is _ _); auto.
Qed.

Lemma update_descr_congr : forall r g1 g2,
  game_id g1 = game_id g2 -> finals g1 = finals g2 -> update_descr r g1 = update_descr r g2.
Proof.
  intros r g1 g2 Hi Hf. unfold finals in Hf. inversion Hf.
  unfold update_descr. rewrite Hi, H0, H1, H2. reflexivity.
Qed.

Lemma upsert_one_present : forall gs r id,
  g_game_id r = Some id -> id_in gs id = true -> upsert_one gs r = map (upd r) gs.
Proof.
  intros gs r id Hr H. unfold upsert_one, upd. rewrite Hr.
  fold (id_in gs id). rewrite H. reflexivity.
Qed.

Lemma upsert_fold_present_map : forall rs gs,
  (forall r, In r rs -> exists id, g_game_id r = Some id /\ id_in gs id = true) ->
  fold_left upsert_one rs gs = map (upd_all rs) gs.
Proof.
  induction rs as [|r rs IH]; intros gs Hp; simpl.
  - symmetry. apply map_id.
  - destruct (Hp r (or_introl eq_refl)) as [id [Hr Hid]].
    rewrite (upsert_one_present gs r id Hr Hid), IH, map_map; [reflexivity|].
    intros r' Hr'. destruct (Hp r' (or_intror Hr')) as [id' [Hr'' Hid']].
    exists id'. split; [exact Hr''|]. rewrite id_in_map by apply upd_id. exact Hid'.
Qed.

Lemma upsert_one_keeps_present : forall gs r x,
  id_in gs x = true -> id_in (upsert_one gs r) x = true.
Proof.
  intros gs r x H. unfold upsert_one.
  destruct (g_game_id r) as [id|]; [destruct (existsb _ gs)|].
  - rewrite id_in_map by (intros g; destruct (key_is _ _); reflexivity). exact H.
  - unfold id_in in *. rewrite existsb_app, H. reflexivity.
  - unfold id_in in *. rewrite existsb_app, H. reflexivity.
Qed.

Lemma upsert_one_adds : forall gs r id,
  g_game_id r = Some id -> id_in (upsert_one gs r) id = true.
Proof.
  intros gs r id Hr. unfold upsert_one. rewrite Hr. destruct (existsb _ gs) eqn:E.
  - rewrite id_in_map by (intros g; destruct (key_is _ _); reflexivity). exact E.
  - unfold id_in. rewrite existsb_app. simpl. rewrite Hr. simpl.
    rewrite String.eqb_refl, orb_true_r. reflexivity.
Qed.

Lemma upsert_fold_keeps_present : forall rs gs x,
  id_in gs x = true -> id_in (fold_left upsert_one rs gs) x = true.
Proof.
  induction rs as [|r rs IH]; intros gs x H; simpl; [exact H|].
  apply IH, upsert_one_keeps_present, H.
Qed.

Lemma upsert_fold_present : forall rs gs r id,
  In r rs -> g_game_id r = Some id -> id_in (fold_left upsert_one rs gs) id = true.
Proof.
  induction rs as [|r rs IH]; intros gs r0 id Hin Hr; [destruct Hin|].
  destruct Hin as [<- | Hin]; simpl.
  - apply upsert_fold_keeps_present, upsert_one_adds, Hr.
  - apply (IH _ r0); assumption.
Qed.

Lemma upd_fixed_update : forall rs r g id,
  g_game_id r = Some id -> game_id g = Some id ->
  upd r (upd_all rs (update_descr r g)) = update_descr r g.
Proof.
  intros rs r g id Hr Hg. destruct (upd_all_id_finals rs (update_descr r g)) as [Hi Hf].
  simpl in Hi. unfold upd. rewrite Hr, Hi, Hg. simpl. rewrite String.eqb_refl.
  apply update_descr_congr; [exact Hi | exact Hf].
Qed.

Lemma upd_all_no_key : forall rs g, game_id g = None -> upd_all rs g = g.
Proof.
  induction rs as [|r rs IH]; intros g Hg; [reflexivity|].
  unfold upd_all. simpl. fold (upd_all rs (upd r g)).
  assert (upd r g = g) as ->.
  { unfold upd. destruct (g_game_id r); [rewrite Hg; reflexivity | reflexivity]. }
  apply IH, Hg.
Qed.

Lemma upd_fixed_new : forall rs r, upd r (upd_all rs (new_game r)) = new_game r.
Proof.
  intros rs r. destruct (upd_all_id_finals rs (new_game r)) as [Hi Hf].
  simpl in Hi. unfold upd.
  destruct (g_game_id r) as [id|] eqn:Hr; [|apply upd_all_no_key; simpl; exact Hr].
  rewrite Hi. simpl. rewrite String.eqb_refl.
  transitivity (update_descr r (new_game r)); [|reflexivity].
  apply update_descr_congr; [simpl; rewrite Hi, Hr; reflexivity | exact Hf].
Qed.

Lemma upd_fixed_other : forall rs r g,
  upd r g = g -> upd_all rs g = g -> upd r (upd_all rs g) = g.
Proof. intros rs r g E H. rewrite H. exact E. Qed.

(** Every row after a batch is left as it is by the batch's updates. *)
Lemma upsert_fold_fixed : forall rs gs g,
  In g (fold_left upsert_one rs gs) -> upd_all rs g = g.
Proof.
  induction rs as [|r rs IH] using rev_ind; intros gs g Hin; [reflexivity|].
  rewrite fold_left_app in Hin. simpl in Hin.
  unfold upd_all. rewrite fold_left_app. simpl. fold (upd_all rs g).
  assert (IH' : forall g, In g (fold_left upsert_one rs gs) -> upd_all rs g = g)
    by (intros; apply (IH gs); assumption).
  clear IH. generalize dependent (fold_left upsert_one rs gs). intros G Hin IH.
  unfold upsert_one in Hin. destruct (g_game_id r) as [id|] eqn:Hr.
  - destruct (existsb _ _) eqn:E.
    + apply in_map_iff in Hin as [g1 [<- Hg1]].
      specialize (IH g1 Hg1).
      destruct (key_is (game_id g1) id) eqn:E1.
      * apply (upd_fixed_update rs r g1 id Hr). apply key_is_spec. exact E1.
      * apply upd_fixed_other; [|exact IH]. unfold upd. rewrite Hr, E1. reflexivity.
    + apply in_app_or in Hin as [Hg | [<- | []]].
      * apply upd_fixed_other; [| exact (IH g Hg)]. unfold upd. rewrite Hr.
        destruct (key_is (game_id g) id) eqn:E1; [|reflexivity].
        assert (existsb (fun g0 => key_is (game_id g0) id) G = true) as Ht
          by (apply existsb_exists; exists g; auto).
        congruence.
      * apply upd_fixed_new.
  - unfold upd. rewrite Hr. apply in_app_or in Hin as [Hg | [<- | []]].
    + exact (IH g Hg).
    + apply upd_all_no_key. simpl. exact Hr.
Qed.

(** Re-running, on the rows a batch leaves, a batch whose records all have
    their id present adds no row. *)
Lemma upsert_fold_length : forall rs gs,
  (forall r id, In r rs -> g_game_id r = Some id -> id_in gs id = true) ->
  length (fold_left upsert_one rs gs) = length gs + length (filter no_id rs).
Proof.
  induction rs as [|r rs IH]; intros gs Hp; simpl; [lia|].
  unfold no_id at 1. destruct (g_game_id r) as [id|] eqn:Hr.
  - rewrite (upsert_one_present gs r id Hr (Hp r id (or_introl eq_refl) Hr)).
    rewrite IH, length_map; [reflexivity|].
    intros r' id' Hr' Hid'. rewrite id_in_map by apply upd_id.
    exact (Hp r' id' (or_intror Hr') Hid').
  - unfold upsert_one. rewrite Hr. rewrite IH, length_app; [simpl; lia|].
    intros r' id' Hr' Hid'. unfold id_in. rewrite existsb_app.
    fold (id_in gs id'). rewrite (Hp r' id' (or_intror Hr') Hid'). reflexivity.
Qed.

(** Running a batch of fetched records through [upsert_games] a second
    time changes nothing when every record has a [game_id], also for a
    batch that repeats one; a record whose [game_id] is [None] never
    conflicts, so each re-run adds one more row for it. *)
Theorem upsert_games_idempotent : forall s rs,
  (Forall (fun r => g_game_id r <> None) rs ->
   upsert_games (upsert_games s rs) rs = upsert_games s rs) /\
  length (games (upsert_games (upsert_games s rs) rs))
  = length (games (upsert_games s rs)) + length (filter no_id rs).
Proof.
  intros s rs. split.
  - intros Hall. unfold upsert_games; simpl. f_equal.
    rewrite upsert_fold_present_map.
    + transitivity (map (fun g => g) (fold_left upsert_one rs (games s))); [|apply map_id].
      apply map_ext_in. intros g Hg. exact (upsert_fold_fixed rs (games s) g Hg).
    + intros r Hr. rewrite Forall_forall in Hall.
      destruct (g_game_id r) as [id|] eqn:Hid; [|exfalso; exact (Hall r Hr Hid)].
      exists id. split; [reflexivity|]. apply (upsert_fold_present rs (games s) r id Hr Hid).
  - unfold upsert_games; simpl. apply upsert_fold_length.
    intros r id Hr Hid. apply (upsert_fold_present rs (games s) r id Hr Hid).
Qed.

(** The descriptive columns of a [games] row. *)
Definition descr (g : game) :=
  (game_id g, short_name g, home_id g, home_name g, away_id g, away_name g,
   start_utc g, over_under g).

(** [update_scores_with_finals] never adds or removes a game and never
    changes a game's id, names, teams, kickoff or line: only the score
    columns and [is_final] move. *)
Theorem update_scores_keeps_descr : forall s evs,
  map descr (games (update_scores_with_finals s evs)) = map descr (games s) /\
  picks (update_scores_with_finals s evs) = picks s.
Proof.
  intros s evs. split; [|reflexivity]. unfold update_scores_with_finals; simpl.
  generalize (games s). induction evs as [|e evs IH]; intros gs; simpl; [reflexivity|].
  rewrite IH. unfold apply_final. destruct (ev_gid e) as [gid|]; [|reflexivity].
  rewrite map_map. apply map_ext. intros g. destruct (key_is (game_id g) gid); reflexivity.
Qed.

(** ** The pick store under any sequence of requests *)

(** Whatever sequence of predictions, ingestions and result updates runs,
    the stored picks are never changed or removed (new picks are only
    appended), and there is never more than one pick per (user, game). *)
Theorem picks_append_only : forall os s,
  NoDup (map pick_key (picks s)) ->
  (exists added, picks (run_ops s os) = picks s ++ added) /\
  NoDup (map pick_key (picks (run_ops s os))).
Proof.
  induction os as [|o os IH]; intros s Hnd; simpl.
  - split; [exists []; rewrite app_nil_r; reflexivity | exact Hnd].
  - assert (Hstep : (exists added, picks (run_op s o) = picks s ++ added) /\
                    NoDup (map pick_key (picks (run_op s o)))).
    { destruct o as [now u gid w t | rs | evs]; simpl.
      - unfold make_prediction; simpl.
        destruct (existsb (pick_key_is u gid) (picks s)) eqn:E; simpl.
        + split; [exists []; rewrite app_nil_r; reflexivity | exact Hnd].
        + split; [eexists; reflexivity|].
          rewrite map_app. simpl.
          apply (Permutation_NoDup (l := pick_key (mkPick u gid w t now) :: map pick_key (picks s))).
          * apply Permutation_cons_append.
          * constructor; [apply existsb_key_false; exact E | exact Hnd].
      - split; [exists []; rewrite app_nil_r; reflexivity | exact Hnd].
      - split; [exists []; rewrite app_nil_r; reflexivity | exact Hnd]. }
    destruct Hstep as [[a1 Ha1] Hnd1].
    destruct (IH (run_op s o) Hnd1) as [[a2 Ha2] Hnd2].
    split; [exists (a1 ++ a2); rewrite Ha2, Ha1, app_assoc; reflexivity | exact Hnd2].
Qed.

Lemma picks_append_only_witness :
  NoDup (map pick_key (picks db_c1)) /\
  NoDup (map pick_key (picks (run_ops db_c1
    [OpPredict 1 "alice" "g1" "home" "over"; OpPredict 2 "alice" "g1" "away" "under";
     OpFinals [ev_c9]]))).
Proof.
  assert (H : NoDup (map pick_key (picks db_c1))) by constructor.
  split; [exact H | exact (proj2 (picks_append_only _ db_c1 H))].
Defined.

(** ** Profile counters *)

(** A row the profile loop counts in [total_picks]: its game is finalized. *)
Definition row_final (r : prow) : bool :=
  match snd r with Some g => is_final g | None => false end.

Definition counters_ok (st : pstate) : Prop :=
  current_streak st <= wins st <= total_picks st.

Lemma profile_step_counts : forall st r,
  counters_ok st ->
  total_picks (profile_step st r) = total_picks st + (if row_final r then 1 else 0) /\
  wins (profile_step st r) = wins st + count_occ bool_dec (row_flag r) true /\
  counters_ok (profile_step st r).
Proof.
  intros st [p [g|]] Hok; unfold counters_ok, row_final in *; simpl; [| lia].
  destruct (is_final g); simpl; [| lia].
  destruct (final_home_score g) as [home|], (final_away_score g) as [away|]; simpl;
    try (lia).
  destruct (String.eqb (pick_winner p) (profile_actual_winner home away)
            && String.eqb (pick_total p) (profile_ou_result (home + away)%Z (over_under g)));
    simpl; [| lia].
  destruct (last_was_win st) as [[|]|]; simpl; lia.
Qed.

Lemma profile_loop_counts : forall rows st,
  counters_ok st ->
  total_picks (fold_left profile_step rows st)
    = total_picks st + length (filter row_final rows) /\
  wins (fold_left profile_step rows st)
    = wins st + count_occ bool_dec (scored_flags rows) true /\
  counters_ok (fold_left profile_step rows st).
Proof.
  induction rows as [|r rows IH]; intros st Hok; simpl; [unfold counters_ok in *; lia|].
  destruct (profile_step_counts st r Hok) as [Ht [Hw Hok']].
  destruct (IH _ Hok') as [Ht' [Hw' Hok'']].
  unfold scored_flags in *. simpl. rewrite count_occ_app.
  rewrite Ht', Hw', Ht, Hw. split; [destruct (row_final r); simpl; lia | split; [lia | exact Hok'']].
Qed.

(** The profile's [total_picks] counts the shown picks whose game is
    finalized, scores present or not; [wins] counts the fully-correct ones;
    the streak never exceeds the wins nor the wins the picks; [Streak5]
    needs at least 5 wins and [Win80] at least 10 finalized picks. *)
Theorem profile_counters : forall win_rate_of gs ps u,
  po_total_picks (profile_stats win_rate_of gs ps u)
    = length (filter row_final (profile_rows gs ps u)) /\
  po_wins (profile_stats win_rate_of gs ps u)
    = count_occ bool_dec (scored_flags (profile_rows gs ps u)) true /\
  po_current_streak (profile_stats win_rate_of gs ps u)
    <= po_wins (profile_stats win_rate_of gs ps u)
    <= po_total_picks (profile_stats win_rate_of gs ps u) /\
  (po_streak5 (profile_stats win_rate_of gs ps u) = true ->
     5 <= po_wins (profile_stats win_rate_of gs ps u)) /\
  (po_win80 (profile_stats win_rate_of gs ps u) = true ->
     10 <= po_total_picks (profile_stats win_rate_of gs ps u)).
Proof.
  intros win_rate_of gs ps u. unfold profile_stats, profile_loop.
  cbn [po_total_picks po_wins po_current_streak po_streak5 po_win80].
  destruct (profile_loop_counts (profile_rows gs ps u) pstate0) as [Ht [Hw Hok]];
    [unfold counters_ok; simpl; lia|].
  change (total_picks pstate0) with 0 in Ht. change (wins pstate0) with 0 in Hw.
  rewrite Nat.add_0_l in Ht, Hw. unfold counters_ok in Hok.
  split; [exact Ht|]. split; [exact Hw|]. split; [exact Hok|]. split.
  - intros H. apply Nat.leb_le in H. lia.
  - intros H. apply andb_true_iff in H as [_ H]. apply Nat.leb_le in H. exact H.
Qed.

(** On a finalized game with a NULL final score, the leaderboard's SQL
    comparisons are NULL and fall to their [ELSE] branches, so exactly the
    away/under picks count as fully correct there; the profile counts such
    a pick in [total_picks] but never as a win. *)
Theorem null_score_final_game : forall g p st,
  is_final g = true ->
  (final_home_score g = None \/ final_away_score g = None) ->
  lb_qualifies p g = String.eqb (pick_winner p) "away" && String.eqb (pick_total p) "under" /\
  total_picks (profile_step st (p, Some g)) = S (total_picks st) /\
  wins (profile_step st (p, Some g)) = wins st /\
  row_flag (p, Some g) = [].
Proof.
  intros g p st Hf Hn. unfold lb_qualifies, lb_winner, lb_total, sql_gt_z, sql_add, sql_gt_q; simpl.
  rewrite Hf.
  destruct Hn as [Hn | Hn]; rewrite Hn;
    [| destruct (final_home_score g)]; simpl; repeat split; reflexivity.
Qed.

Lemma null_score_final_game_witness :
  lb_qualifies (mkPick "alice" "g" "away" "under" 0) (tgame "g" 1 None None (Some 7%Z) true) = true.
Proof.
  destruct (null_score_final_game (tgame "g" 1 None None (Some 7%Z) true)
              (mkPick "alice" "g" "away" "under" 0) pstate0 eq_refl (or_introl eq_refl)) as [H _].
  rewrite H. reflexivity.
Defined.

(** The 15 profile slots are taken by the 15 earliest game rows, a row
    with a NULL [game_id] included ([None] in the id list), while such a
    slot matches no pick: every pick the profile reads has its game's id
    among the slots, so id-less rows that kick off earlier push a user's
    finalized picks out of the statistics. *)
Theorem profile_null_ids_take_slots :
  (forall gs, length (top_game_ids gs) = Nat.min 15 (length gs)) /\
  (forall gs ps u r, In r (profile_rows gs ps u) ->
     In (Some (pick_game_id (fst r))) (top_game_ids gs)) /\
  top_game_ids gs_crowded = map (fun _ => None) (seq 0 15) /\
  po_total_picks (profile_stats pct gs_late ps_late "alice") = 1 /\
  po_total_picks (profile_stats pct gs_crowded ps_late "alice") = 0.
Proof.
  split; [|split; [|split; [|split]]].
  - intros gs. unfold top_game_ids. rewrite length_firstn, length_map.
    rewrite (Permutation_length (sort_by_perm _ start_le gs)). reflexivity.
  - intros gs ps u [p og] H. simpl. unfold profile_rows in H.
    destruct (top_game_ids gs) as [|k ks] eqn:Et; [destruct H|].
    rewrite <- Et.
    apply (Permutation_in _ (sort_by_perm _ made_le _)) in H.
    apply in_map_iff in H as [p' [Hp Hin]]. injection Hp as <- _.
    apply filter_In in Hin as [_ Hf]. apply andb_prop in Hf as [_ Ht].
    unfold in_top in Ht. apply existsb_exists in Ht as [k' [Hk Hkey]].
    apply key_is_spec in Hkey. subst k'. exact Hk.
  - vm_compute. reflexivity.
  - vm_compute. reflexivity.
  - vm_compute. reflexivity.
Qed.

(** ** Leaderboard counts against the pick table *)

Lemma filter_filter_length : forall {A} (f q : A -> bool) l,
  length (filter f (filter q l)) <= length (filter f l).
Proof.
  intros A f q l. induction l as [|x l IH]; simpl; [lia|].
  destruct (q x), (f x) eqn:E; simpl; try rewrite E; simpl; lia.
Qed.

(** The ids of the rows that have one: the [PRIMARY KEY] makes them
    distinct, while any number of rows may have a NULL [game_id]. *)
Definition present_ids (gs : list game) : list string :=
  flat_map (fun g => match game_id g with Some x => [x] | None => [] end) gs.

Lemma filter_id_absent : forall gs x,
  ~ In x (present_ids gs) -> filter (fun g => key_is (game_id g) x) gs = [].
Proof.
  intros gs x H. induction gs as [|g gs IH]; simpl; [reflexivity|].
  simpl in H. destruct (key_is (game_id g) x) eqn:E.
  - apply key_is_spec in E. exfalso. apply H. rewrite E. left. reflexivity.
  - apply IH. intros Hin. apply H. apply in_or_app. right. exact Hin.
Qed.

Lemma filter_id_le1 : forall gs x,
  NoDup (present_ids gs) -> length (filter (fun g => key_is (game_id g) x) gs) <= 1.
Proof.
  intros gs x Hnd. induction gs as [|g gs IH]; simpl; [lia|].
  simpl in Hnd. destruct (key_is (game_id g) x) eqn:E; simpl.
  - apply key_is_spec in E. rewrite E in Hnd. simpl in Hnd.
    inversion Hnd as [|? ? Hnin Hnd']; subst.
    rewrite filter_id_absent by exact Hnin. simpl. lia.
  - apply IH. destruct (game_id g); [|exact Hnd]. inversion Hnd; assumption.
Qed.

Lemma join_user_length : forall gs ps u,
  NoDup (present_ids gs) ->
  length (filter (fun pg : pick * game => String.eqb (user (fst pg)) u)
    (flat_map (fun p => map (fun g => (p, g))
                 (filter (fun g => key_is (game_id g) (pick_game_id p)) gs)) ps))
  <= length (filter (fun p => String.eqb (user p) u) ps).
Proof.
  intros gs ps u Hnd. induction ps as [|p ps IH]; simpl; [lia|].
  rewrite filter_app, length_app.
  assert (Hp : length (filter (fun pg : pick * game => String.eqb (user (fst pg)) u)
                 (map (fun g => (p, g))
                    (filter (fun g => key_is (game_id g) (pick_game_id p)) gs)))
               <= if String.eqb (user p) u then 1 else 0).
  { pose proof (filter_id_le1 gs (pick_game_id p) Hnd) as H1.
    generalize dependent (filter (fun g => key_is (game_id g) (pick_game_id p)) gs).
    intros L HL. destruct (String.eqb (user p) u) eqn:E.
    - eapply Nat.le_trans; [|exact HL]. clear HL.
      induction L as [|g L IHL]; simpl; [lia|]. rewrite E. simpl. lia.
    - clear HL. induction L as [|g L IHL]; simpl; [lia|]. rewrite E. exact IHL. }
  destruct (String.eqb (user p) u); simpl; lia.
Qed.

(** With the non-NULL [game_id]s unique in [games] (it is the table's
    primary key; NULL ids join no pick), a user's leaderboard count never
    exceeds the number of picks the user has made. *)
Theorem lb_count_le_picks : forall s u,
  NoDup (present_ids (games s)) ->
  lb_count s u <= length (filter (fun p => String.eqb (user p) u) (picks s)).
Proof.
  intros s u Hnd. unfold lb_count, lb_rows.
  eapply Nat.le_trans; [apply filter_filter_length|].
  apply join_user_length. exact Hnd.
Qed.

Lemma lb_count_le_picks_witness :
  lb_count db_c7 "alice" <= length (filter (fun p => String.eqb (user p) "alice") (picks db_c7)).
Proof.
  apply lb_count_le_picks. vm_compute.
  repeat constructor; simpl; intuition discriminate.
Defined.

(** ** The [/games] view *)

Lemma existsb_eqb_In : forall x l, existsb (String.eqb x) l = true <-> In x l.
Proof.
  intros x l. rewrite existsb_exists. split.
  - intros [y [Hy He]]. apply String.eqb_eq in He. subst. exact Hy.
  - intros H. exists x. split; [exact H | apply String.eqb_refl].
Qed.

Lemma make_prediction_records_pick : forall s now u gid w t,
  In gid (picked_game_ids (picks (fst (make_prediction s now u gid w t))) u).
Proof.
  intros s now u gid w t. unfold make_prediction, picked_game_ids.
  destruct (existsb (pick_key_is u gid) (picks s)) eqn:E; simpl.
  - apply existsb_exists in E as [p [Hp Hk]]. apply pick_key_is_spec in Hk.
    unfold pick_key in Hk. inversion Hk as [[Hu Hg]].
    apply in_map_iff. exists p. split; [congruence|].
    apply filter_In. split; [exact Hp | apply String.eqb_eq; congruence].
  - apply in_map_iff. exists (mkPick u gid w t now). split; [reflexivity|].
    apply filter_In. split; [apply in_or_app; right; left; reflexivity | apply String.eqb_refl].
Qed.

(** [/games] ingests the fetched games and lists the fetched games the
    user has not picked yet, in fetch order (the view is the fetched list
    with the picked games taken out, duplicates and all), judged on the
    picks stored before the request; a fetched game with no id is always
    listed.  Once the user has submitted a pick for a game (whether it was
    stored or ignored), that game is no longer offered to them. *)
Theorem games_view_hides_picked : forall s fetched u,
  fst (games_handler s fetched u) = upsert_games s fetched /\
  snd (games_handler s fetched u) = filter (not_picked (picked_game_ids (picks s) u)) fetched /\
  (forall r, In r (snd (games_handler s fetched u))
             <-> In r fetched /\
                 match g_game_id r with
                 | Some id => ~ In id (picked_game_ids (picks s) u)
                 | None => True
                 end) /\
  (forall now gid w t r,
     In r (snd (games_handler (fst (make_prediction s now u gid w t)) fetched u)) ->
     g_game_id r <> Some gid).
Proof.
  intros s fetched u.
  assert (Hview : forall s r, In r (snd (games_handler s fetched u))
             <-> In r fetched /\
                 match g_game_id r with
                 | Some id => ~ In id (picked_game_ids (picks s) u)
                 | None => True
                 end).
  { intros s0 r. unfold games_handler, not_picked; simpl. rewrite filter_In.
    destruct (g_game_id r) as [id|]; [|tauto]. rewrite negb_true_iff.
    split.
    - intros [Hr Hn]. split; [exact Hr|]. intros Hin.
      apply existsb_eqb_In in Hin. congruence.
    - intros [Hr Hn]. split; [exact Hr|].
      destruct (existsb _ _) eqn:E; [|reflexivity].
      exfalso. apply Hn. apply existsb_eqb_In. exact E. }
  split; [reflexivity|]. split; [reflexivity|]. split; [apply Hview|].
  intros now gid w t r Hr Heq. apply Hview in Hr as [_ Hn]. rewrite Heq in Hn. apply Hn.
  apply make_prediction_records_pick.
Qed.

(** ** The [users] table *)

Lemma register_post_existing : forall hash us u pw now,
  user_exists us u = true ->
  fst (register_post hash us u pw now) = us /\
  (forall x, snd (register_post hash us u pw now) <> RegRedirect x).
Proof.
  intros hash us u pw now H. unfold register_post.
  destruct (negb _); [split; [reflexivity | discriminate]|].
  destruct (hash _); [rewrite H|]; split; (reflexivity || discriminate).
Qed.

Lemma insert_or_ignore_user_exists : forall us u now,
  user_exists (insert_or_ignore_user us u now) u = true.
Proof.
  intros us u now. unfold insert_or_ignore_user.
  destruct (user_exists us u) eqn:E; [exact E|].
  unfold user_exists. rewrite existsb_app. simpl. rewrite String.eqb_refl, orb_true_r.
  reflexivity.
Qed.

Lemma user_exists_app : forall us rows u,
  user_exists us u = true -> user_exists (us ++ rows) u = true.
Proof.
  intros us rows u H. unfold user_exists in *. rewrite existsb_app, H. reflexivity.
Qed.

Lemma app_step_keeps_user : forall hash st o u,
  user_exists (snd st) u = true -> user_exists (snd (app_step hash st o)) u = true.
Proof.
  intros hash [s us] o u H. simpl in H.
  destruct o as [now v gid w t | rs | evs | v pw now]; simpl; [| exact H | exact H |].
  - unfold make_prediction_app. destruct (make_prediction s now v gid w t). simpl.
    unfold insert_or_ignore_user. destruct (user_exists us v); [exact H|].
    apply user_exists_app, H.
  - unfold register_post. destruct (negb _); [exact H|].
    destruct (hash _); [|exact H]. destruct (user_exists us v); [exact H|].
    apply user_exists_app, H.
Qed.

Lemma run_app_keeps_user : forall hash os st u,
  user_exists (snd st) u = true -> user_exists (snd (run_app hash st os)) u = true.
Proof.
  induction os as [|o os IH]; intros st u H; [exact H|].
  simpl. apply IH, app_step_keeps_user, H.
Qed.

(** Once [/predict] has been called with a username, that username exists
    in [users] (with a NULL password when [/predict] created it), and from
    then on, whatever requests follow, [/register] for it can never
    succeed: it answers with an error and leaves [users] unchanged. *)
Theorem predict_blocks_registration : forall hash s us now u gid w t os pw now',
  let st1 := app_step hash (s, us) (AppPredict now u gid w t) in
  let us' := snd (run_app hash st1 os) in
  (user_exists us u = false -> In (mkUser u None now) (snd st1)) /\
  user_exists us' u = true /\
  fst (register_post hash us' u pw now') = us' /\
  (forall x, snd (register_post hash us' u pw now') <> RegRedirect x).
Proof.
  intros hash s us now u gid w t os pw now' st1 us'.
  assert (Hus : snd st1 = insert_or_ignore_user us u now).
  { unfold st1. simpl. unfold make_prediction_app.
    destruct (make_prediction s now u gid w t). reflexivity. }
  assert (He : user_exists us' u = true).
  { apply run_app_keeps_user. rewrite Hus. apply insert_or_ignore_user_exists. }
  split; [|split; [exact He|]].
  - intros Hn. rewrite Hus. unfold insert_or_ignore_user. rewrite Hn.
    apply in_or_app. right. left. reflexivity.
  - exact (register_post_existing hash us' u pw now' He).
Qed.

Lemma length_le_utf8_len : forall s, String.length s <= utf8_len s.
Proof.
  induction s as [|c s IH]; simpl; [lia|]. unfold utf8_len in *. simpl.
  destruct (Nat.ltb _ _); lia.
Qed.

Lemma substring_all : forall s n, String.length s <= n -> substring 0 n s = s.
Proof.
  induction s as [|c s IH]; intros n H; simpl; [destruct n; reflexivity|].
  destruct n as [|n]; simpl in H; [lia|]. f_equal. apply IH. lia.
Qed.

(** A successful [/register] means: the stripped password is 8 to 72 bytes
    long, the username was free, and the new row holds the hash of the
    whole stripped password (the [password[:72]] cut never removes a
    character, since no accepted password has more than 72 characters). *)
Theorem register_post_success : forall hash us u pw now x,
  snd (register_post hash us u pw now) = RegRedirect x ->
  x = u /\ user_exists us u = false /\
  8 <= utf8_len (py_strip pw) <= 72 /\
  exists h, hash (py_strip pw) = Some h /\
            fst (register_post hash us u pw now) = us ++ [mkUser u (Some h) now].
Proof.
  intros hash us u pw now x. unfold register_post.
  destruct (Nat.leb 8 (utf8_len (py_strip pw)) && Nat.leb (utf8_len (py_strip pw)) 72) eqn:El;
    simpl; [|discriminate].
  apply andb_true_iff in El as [E1 E2]. apply Nat.leb_le in E1, E2.
  rewrite substring_all by (pose proof (length_le_utf8_len (py_strip pw)); lia).
  destruct (hash (py_strip pw)) as [h|]; [|discriminate].
  destruct (user_exists us u) eqn:Eu; [discriminate|].
  intros H. inversion H. split; [reflexivity|]. split; [reflexivity|].
  split; [lia|]. exists h. split; reflexivity.
Qed.

Lemma register_post_success_witness :
  snd (register_post (fun p => Some p) [] "alice" " password1 " 0) = RegRedirect "alice" /\
  8 <= utf8_len (py_strip " password1 ") <= 72.
Proof.
  assert (H : snd (register_post (fun p => Some p) [] "alice" " password1 " 0)
              = RegRedirect "alice") by reflexivity.
  split; [exact H|].
  destruct (register_post_success _ _ _ _ _ _ H) as [_ [_ [Hl _]]]. exact Hl.
Defined.

(** ** Achievements *)

Definition has_badge (ach : list achievement) (u b : string) : bool :=
  existsb (fun a => String.eqb (a_username a) u && String.eqb (badge a) b) ach.

Lemma award_noop : forall ach u b now, has_badge ach u b = true -> award ach u b now = ach.
Proof. intros ach u b now H. unfold award. fold (has_badge ach u b). rewrite H. reflexivity. Qed.

Lemma award_incl : forall ach u b now a, In a ach -> In a (award ach u b now).
Proof.
  intros ach u b now a H. unfold award. destruct (existsb _ _); [exact H|].
  apply in_or_app. left. exact H.
Qed.

Lemma award_has : forall ach u b now u' b',
  has_badge ach u' b' = true \/ (u' = u /\ b' = b) -> has_badge (award ach u b now) u' b' = true.
Proof.
  intros ach u b now u' b' [H | [-> ->]].
  - unfold has_badge in *. apply existsb_exists in H as [a [Ha Hk]].
    apply existsb_exists. exists a. split; [apply award_incl; exact Ha | exact Hk].
  - unfold award. fold (has_badge ach u b). destruct (has_badge ach u b) eqn:E; [exact E|].
    unfold has_badge. rewrite existsb_app. simpl. rewrite !String.eqb_refl, orb_true_r.
    reflexivity.
Qed.

Ltac has_badge_close :=
  repeat first [ apply award_has; right; split; reflexivity
               | apply award_has; left ].

(** The badges [profile] lists, given the table after awarding. *)
Definition shown_badges (po : profile_out) : list string :=
  ((if po_streak5 po then ["Streak5"] else []) ++ (if po_win80 po then ["Win80"] else [])).

Definition badge_view (select_badges : list achievement -> string -> list string)
  (ach2 : list achievement) (u : string) (po : profile_out) : list string :=
  shown_badges po ++ filter (fun b => negb (existsb (String.eqb b) (shown_badges po)))
    (select_badges ach2 u).

Lemma profile_badges_shape : forall select ach u po now,
  profile_badges select ach u po now =
  (fst (profile_badges select ach u po now),
   badge_view select (fst (profile_badges select ach u po now)) u po).
Proof.
  intros select ach u po now. unfold profile_badges, badge_view, shown_badges.
  destruct (po_streak5 po), (po_win80 po); reflexivity.
Qed.

(** Viewing the profile a second time with the same statistics
    awards nothing new and shows the same badges ([INSERT OR IGNORE] under
    [UNIQUE(username, badge)]), whatever order the unordered [SELECT badge]
    returns the rows in, as long as that order is a function of the table;
    and, when that [SELECT] returns exactly the user's stored badges in some
    order, every badge ever stored for the user is shown on every later
    view, even when it is no longer earned. *)
Theorem profile_badges_idempotent_sticky : forall select ach u po now now',
  profile_badges select (fst (profile_badges select ach u po now)) u po now' =
    profile_badges select ach u po now /\
  ((forall ach' u', Permutation (select ach' u')
                      (map badge (filter (fun a => String.eqb (a_username a) u') ach'))) ->
   forall a, In a ach -> a_username a = u ->
   In (badge a) (snd (profile_badges select ach u po now))).
Proof.
  intros select ach u po now now'. split.
  - set (ach2 := fst (profile_badges select ach u po now)).
    assert (Hs : po_streak5 po = true -> has_badge ach2 u "Streak5" = true).
    { intros H. unfold ach2, profile_badges. rewrite H.
      destruct (po_win80 po); simpl; has_badge_close. }
    assert (Hw : po_win80 po = true -> has_badge ach2 u "Win80" = true).
    { intros H. unfold ach2, profile_badges. rewrite H.
      destruct (po_streak5 po); simpl; has_badge_close. }
    assert (Hf : fst (profile_badges select ach2 u po now') = ach2).
    { unfold profile_badges. destruct (po_streak5 po) eqn:E5, (po_win80 po) eqn:E8; simpl.
      - rewrite (award_noop ach2 u "Streak5" now' (Hs eq_refl)).
        apply award_noop, Hw; reflexivity.
      - apply award_noop, Hs; reflexivity.
      - apply award_noop, Hw; reflexivity.
      - reflexivity. }
    rewrite (profile_badges_shape select ach2 u po now'), (profile_badges_shape select ach u po now).
    fold ach2. rewrite Hf. reflexivity.
  - intros Hsel a Ha Hu. rewrite profile_badges_shape. unfold snd at 1, badge_view.
    assert (Hin : forall ach2 b2, In a ach2 ->
              In (badge a) (b2 ++ filter (fun b => negb (existsb (String.eqb b) b2))
                                  (select ach2 u))).
    { intros ach2 b2 Ha2. apply in_or_app.
      destruct (existsb (String.eqb (badge a)) b2) eqn:E.
      - left. apply existsb_eqb_In. exact E.
      - right. apply filter_In. rewrite E. split; [|reflexivity].
        apply (Permutation_in _ (Permutation_sym (Hsel ach2 u))).
        apply in_map. apply filter_In. split; [exact Ha2 | apply String.eqb_eq; exact Hu]. }
    apply Hin. unfold profile_badges.
    destruct (po_streak5 po), (po_win80 po); simpl; repeat apply award_incl; exact Ha.
Qed.

(** ** Groups *)







(** ** The poll week *)

(** [get_current_cf_week] is 1 on every day before the season start and
    during its first seven days, moves up by exactly one every seven days
    from the start on, and is never below 1. *)
Theorem cf_week_steps :
  (forall d, (d < 7)%Z -> get_current_cf_week d = 1%Z) /\
  (forall d, (0 <= d)%Z -> get_current_cf_week (d + 7) = (get_current_cf_week d + 1)%Z) /\
  (forall d, (1 <= get_current_cf_week d)%Z).
Proof.
  unfold get_current_cf_week. split; [|split].
  - intros d Hd. apply Z.max_l.
    assert (d / 7 < 1)%Z by (apply Z.div_lt_upper_bound; lia). lia.
  - intros d Hd. replace (d + 7)%Z with (d + 1 * 7)%Z by lia.
    rewrite Z.div_add by lia.
    assert (0 <= d / 7)%Z by (apply Z.div_pos; lia).
    rewrite !Z.max_r by lia. lia.
  - intros d. apply Z.le_max_l.
Qed.

(** ** Matching poll names *)

Lemma is_prefix_refl : forall l, is_prefix l l = true.
Proof.
  induction l as [|a l IH]; simpl; [reflexivity|].
  rewrite IH, andb_true_r. apply Ascii.eqb_refl.
Qed.

Lemma py_contains_refl : forall l, py_contains l l = true.
Proof.
  intros l. destruct l; simpl; [reflexivity|].
  rewrite Ascii.eqb_refl, is_prefix_refl. reflexivity.
Qed.

Lemma py_contains_nil : forall l, py_contains [] l = true.
Proof. intros l. destruct l; reflexivity. Qed.

Lemma is_top25_team_empty_name : forall t top25, is_top25_team "" (t :: top25) = true.
Proof.
  intros t top25. unfold is_top25_team. simpl.
  rewrite py_contains_nil, orb_true_r. reflexivity.
Qed.

(** [is_top25_team]: with no poll names nothing matches; a team whose
    name is in the poll matches; an empty name (a side the scoreboard does
    not label) matches any non-empty poll; and the test is symmetric in
    the two names, so a ranked school also marks every team whose name
    contains it, as "Miami" does "Miami (OH) RedHawks". *)
Theorem is_top25_team_edges :
  (forall name, is_top25_team name [] = false) /\
  (forall name top25, In name top25 -> is_top25_team name top25 = true) /\
  (forall t top25, is_top25_team "" (t :: top25) = true) /\
  (forall a b, is_top25_team a [b] = is_top25_team b [a]) /\
  is_top25_team "Miami (OH) RedHawks" ["Miami"] = true.
Proof.
  split; [|split; [|split; [|split]]].
  - reflexivity.
  - intros name top25 Hin. unfold is_top25_team. apply existsb_exists.
    exists name. split; [exact Hin|]. rewrite py_contains_refl. reflexivity.
  - apply is_top25_team_empty_name.
  - intros a b. unfold is_top25_team. simpl. rewrite !orb_false_r. apply orb_comm.
  - vm_compute. reflexivity.
Qed.

(** ** The scoreboard filter *)

Lemma fetch_games_In : forall top25 evs g,
  In g (fetch_games top25 evs) <-> exists ev, In ev evs /\ fetch_one top25 ev = Some g.
Proof.
  intros top25 evs g. unfold fetch_games. rewrite in_flat_map. split.
  - intros [ev [Hev Hg]]. exists ev. split; [exact Hev|].
    destruct (fetch_one top25 ev); [destruct Hg as [Hg|[]]; congruence | destruct Hg].
  - intros [ev [Hev Hg]]. exists ev. split; [exact Hev|]. rewrite Hg. left. reflexivity.
Qed.

Lemma py_is_top25_nil : forall n b, py_is_top25 n [] = Some b -> b = false.
Proof. intros [n|] b H; simpl in H; [injection H as <-; reflexivity | discriminate]. Qed.

(** Every game [fetch_ap_top25_games_for_week] returns comes from an event
    of the scoreboard with exactly two competitors, keeps that event's id,
    short name, date, team ids and team names, and its home name passes
    [is_top25_team], or its home name fails and its away name passes (so
    the home name is never [None], as [is_top25_team(None, ...)] raises);
    with an empty poll nothing is returned. *)
Theorem fetch_games_sound : forall top25 evs g,
  In g (fetch_games top25 evs) ->
  exists ev, In ev evs /\
    length (sb_competitors ev) = 2 /\
    f_game_id g = sb_id ev /\ f_short_name g = sb_short_name ev /\ f_start_utc g = sb_date ev /\
    f_home_id g = id_of (side_of "home" (sb_competitors ev)) /\
    f_away_id g = id_of (side_of "away" (sb_competitors ev)) /\
    name_of (side_of "home" (sb_competitors ev)) = Some (f_home_name g) /\
    name_of (side_of "away" (sb_competitors ev)) = Some (f_away_name g) /\
    (py_is_top25 (f_home_name g) top25 = Some true \/
     (py_is_top25 (f_home_name g) top25 = Some false /\
      py_is_top25 (f_away_name g) top25 = Some true)) /\
    top25 <> [].
Proof.
  intros top25 evs g Hg. apply fetch_games_In in Hg as [ev [Hev Hone]].
  exists ev. split; [exact Hev|]. unfold fetch_one in Hone.
  destruct (Nat.eqb (length (sb_competitors ev)) 2) eqn:El; [|discriminate].
  apply Nat.eqb_eq in El. simpl in Hone.
  destruct (name_of (side_of "home" (sb_competitors ev))) as [hn|] eqn:Nh; [|discriminate].
  destruct (name_of (side_of "away" (sb_competitors ev))) as [an|] eqn:Na; [|discriminate].
  destruct (py_is_top25 hn top25) as [[|]|] eqn:Eh;
    [| destruct (py_is_top25 an top25) as [[|]|] eqn:Ea |]; try discriminate;
    injection Hone as <-; simpl;
    (repeat split; [exact El | ..]); try reflexivity.
  - left. exact Eh.
  - intros ->. apply py_is_top25_nil in Eh. discriminate.
  - right. split; assumption.
  - intros ->. apply py_is_top25_nil in Ea. discriminate.
Qed.

Lemma side_of_none : forall side comps,
  Forall (fun c => homeAway c <> Some side) comps -> side_of side comps = None.
Proof.
  intros side comps H. unfold side_of. induction H as [|c cs Hc _ IH]; [reflexivity|].
  simpl. destruct (homeAway c) as [h|] eqn:E; [|exact IH].
  destruct (String.eqb h side) eqn:Eq; [|exact IH].
  apply String.eqb_eq in Eq. subst h. contradiction.
Qed.

(** An event with two competitors neither of which is labelled ["home"]
    or ["away"] (no label, or another one such as ["neutral"]) is still
    returned whenever the poll is non-empty, with both team names [""]
    and no team ids, whatever the competitors' teams are. *)
Theorem fetch_one_unlabelled : forall top25 ev,
  top25 <> [] ->
  length (sb_competitors ev) = 2 ->
  Forall (fun c => homeAway c <> Some "home" /\ homeAway c <> Some "away") (sb_competitors ev) ->
  exists g, fetch_one top25 ev = Some g /\
    f_home_name g = Some "" /\ f_away_name g = Some "" /\ f_home_id g = None /\ f_away_id g = None.
Proof.
  intros top25 ev Hne Hl Hc.
  assert (Hh : side_of "home" (sb_competitors ev) = None).
  { apply side_of_none. eapply Forall_impl; [|exact Hc]. intros c [H _]. exact H. }
  assert (Ha : side_of "away" (sb_competitors ev) = None).
  { apply side_of_none. eapply Forall_impl; [|exact Hc]. intros c [_ H]. exact H. }
  destruct top25 as [|t top25]; [contradiction|].
  unfold fetch_one. rewrite Hl, Hh, Ha. cbn [Nat.eqb negb name_of py_is_top25].
  rewrite (is_top25_team_empty_name t top25).
  eexists. repeat split; reflexivity.
Qed.

(** JSON [null]s in a competitor: a [null] [team] on either side makes
    [None.get] raise and the event is skipped; a [null] home
    [displayName] makes [is_top25_team(None, ...)] raise and the event is
    skipped; a [null] away [displayName] is never looked at when the home
    team is ranked, and the game is returned with away name [None]. *)
Theorem fetch_one_null_names : forall top25 ev,
  (name_of (side_of "home" (sb_competitors ev)) = None \/
   name_of (side_of "away" (sb_competitors ev)) = None -> fetch_one top25 ev = None) /\
  (name_of (side_of "home" (sb_competitors ev)) = Some None -> fetch_one top25 ev = None) /\
  (forall n, length (sb_competitors ev) = 2 ->
     name_of (side_of "home" (sb_competitors ev)) = Some (Some n) ->
     is_top25_team n top25 = true ->
     name_of (side_of "away" (sb_competitors ev)) = Some None ->
     exists g, fetch_one top25 ev = Some g /\ f_home_name g = Some n /\ f_away_name g = None).
Proof.
  intros top25 ev. unfold fetch_one. split; [|split].
  - intros [H|H]; rewrite H; [|destruct (name_of (side_of "home" _))];
      destruct (negb _); reflexivity.
  - intros H. rewrite H. destruct (negb _); [reflexivity|].
    destruct (name_of (side_of "away" _)); reflexivity.
  - intros n Hl Hh Ht Ha. rewrite Hl, Hh, Ha. simpl. rewrite Ht.
    eexists. repeat split; reflexivity.
Qed.

Lemma fetch_games_sound_witness :
  In fetched_demo (fetch_games ["Miami"] [ev_demo]) /\
  exists ev, In ev [ev_demo] /\
    length (sb_competitors ev) = 2 /\
    f_game_id fetched_demo = sb_id ev /\ f_short_name fetched_demo = sb_short_name ev /\
    f_start_utc fetched_demo = sb_date ev /\
    f_home_id fetched_demo = id_of (side_of "home" (sb_competitors ev)) /\
    f_away_id fetched_demo = id_of (side_of "away" (sb_competitors ev)) /\
    name_of (side_of "home" (sb_competitors ev)) = Some (f_home_name fetched_demo) /\
    name_of (side_of "away" (sb_competitors ev)) = Some (f_away_name fetched_demo) /\
    (py_is_top25 (f_home_name fetched_demo) ["Miami"] = Some true \/
     (py_is_top25 (f_home_name fetched_demo) ["Miami"] = Some false /\
      py_is_top25 (f_away_name fetched_demo) ["Miami"] = Some true)) /\
    ["Miami"] <> [].
Proof.
  assert (H : In fetched_demo (fetch_games ["Miami"] [ev_demo])) by (vm_compute; left; reflexivity).
  split; [exact H | apply (fetch_games_sound ["Miami"] [ev_demo] fetched_demo H)].
Defined.

Lemma fetch_one_unlabelled_witness :
  ["Georgia"] <> [] /\ length (sb_competitors ev_unlabelled) = 2 /\
  Forall (fun c => homeAway c <> Some "home" /\ homeAway c <> Some "away")
         (sb_competitors ev_unlabelled) /\
  exists g, fetch_one ["Georgia"] ev_unlabelled = Some g /\
    f_home_name g = Some "" /\ f_away_name g = Some "" /\ f_home_id g = None /\ f_away_id g = None.
Proof.
  assert (H1 : ["Georgia"] <> []) by discriminate.
  assert (H2 : length (sb_competitors ev_unlabelled) = 2) by reflexivity.
  assert (H3 : Forall (fun c => homeAway c <> Some "home" /\ homeAway c <> Some "away")
                      (sb_competitors ev_unlabelled))
    by (simpl; repeat constructor; discriminate).
  split; [exact H1 | split; [exact H2 | split; [exact H3 |]]].
  apply (fetch_one_unlabelled ["Georgia"] ev_unlabelled H1 H2 H3).
Defined.
